(** * ColorHunter: the colour-extraction pipeline of [ColorHunter.py]

    A shallow embedding of [extract_colors], [centerize_histogram] and
    [sort_colors] (class [ColorHunter]), with the properties of the palette
    they compute.

    Python [float] and NumPy [float64] are IEEE-754 binary64; they are
    modelled by the Standard Library's [spec_float] operations at precision
    53 and maximal exponent 1024, so every rounding of the source is kept.
    Exceptions are values of [exn], threaded through a small error monad. *)

From Stdlib Require Import ZArith List Bool Lia Permutation Sorted QArith Qabs.
From Stdlib Require Import Floats.SpecFloat.
From Stdlib Require Strings.String Strings.Ascii.
Import ListNotations.

Local Open Scope Z_scope.

(* ================================================================== *)
(** * Part I: the program                                              *)
(* ================================================================== *)

(** ** Python exceptions and the error monad *)

Module Py.

(** The exception classes that the modelled code can raise or let
    through; [LibraryError] stands for any other class raised inside
    the clustering library. *)
Inductive exn : Type :=
| ValueError
| OverflowError
| LibraryError (code : nat).

Inductive result (A : Type) : Type :=
| Ok (a : A)
| Raise (e : exn).

Arguments Ok {A} a.
Arguments Raise {A} e.

Definition bind {A B : Type} (m : result A) (k : A -> result B) : result B :=
  match m with
  | Ok a => k a
  | Raise e => Raise e
  end.

(** A list comprehension whose body may raise: elements are evaluated
    left to right and the first exception aborts the comprehension. *)
Fixpoint mapM {A B : Type} (f : A -> result B) (l : list A) : result (list B) :=
  match l with
  | [] => Ok []
  | x :: l' =>
      bind (f x) (fun y => bind (mapM f l') (fun ys => Ok (y :: ys)))
  end.

End Py.

Import Py.

Notation "x <- m ;; k" := (bind m (fun x => k))
  (at level 61, m at next level, right associativity).

(** ** binary64 arithmetic *)

Module Binary64.

Definition prec : Z := 53.
Definition emax : Z := 1024.

Definition float : Type := spec_float.

Definition mul : float -> float -> float := SFmul prec emax.
Definition add : float -> float -> float := SFadd prec emax.
Definition div : float -> float -> float := SFdiv prec emax.
Definition ltb : float -> float -> bool := SFltb.
Definition leb : float -> float -> bool := SFleb.
Definition eqb : float -> float -> bool := SFeqb.

(** The correctly rounded (to nearest, ties to even) float of an
    integer. *)
Definition of_Z (n : Z) : float := binary_normalize prec emax n 0 false.

(** The least magnitude whose rounding exceeds the largest finite
    binary64, [2^1024 - 2^971]: half an ulp above it. *)
Definition overflow_bound : Z := 2 ^ 1024 - 2 ^ 970.

(** Python's [int -> float] coercion, as performed by [float * int]:
    correctly rounded, [OverflowError] when the integer is too large
    for a finite float. *)
Definition float_of_int (n : Z) : result float :=
  if Z.abs n <? overflow_bound then Ok (of_Z n) else Raise OverflowError.

(** Python's [int(x)] on a float: truncation toward zero, [ValueError]
    on NaN and [OverflowError] on an infinity. *)
Definition int_of_float (x : float) : result Z :=
  match x with
  | S754_zero _ => Ok 0
  | S754_nan => Raise ValueError
  | S754_infinity _ => Raise OverflowError
  | S754_finite s m e => Ok (cond_Zopp s (Z.shiftl (Zpos m) e))
  end.

(** The float literals of the source, each the binary64 nearest to the
    decimal that is written. *)
Definition lit_0_299 : float := S754_finite false 5386305154335113 (-54).
Definition lit_0_587 : float := S754_finite false 5287225962532962 (-53).
Definition lit_0_114 : float := S754_finite false 8214565720323785 (-56).

(** Floats that are not NaN and carry no minus sign. *)
Definition nonneg (x : float) : bool :=
  match x with
  | S754_zero false | S754_infinity false | S754_finite false _ _ => true
  | _ => false
  end.

(** The exact value of a finite float, as a rational. *)
Definition to_Q (x : float) : Q :=
  match x with
  | S754_finite s m e =>
      match e with
      | Zneg p => Qmake (cond_Zopp s (Zpos m)) (Z.to_pos (2 ^ Zpos p))
      | _ => inject_Z (cond_Zopp s (Zpos m * 2 ^ e))
      end
  | _ => 0%Q
  end.

Definition is_finite (x : float) : bool :=
  match x with
  | S754_zero _ | S754_finite _ _ _ => true
  | _ => false
  end.

End Binary64.

Import Binary64.

(** ** Colours and the palette sorter *)

(** A colour is a list of three Python integers, [color[0]], [color[1]]
    and [color[2]]; pixels of the decoded image have the same shape. *)
Record color : Type := RGB { red : Z; green : Z; blue : Z }.

Definition pixel : Type := color.

Definition color_eq_dec (a b : color) : {a = b} + {a <> b}.
Proof. decide equality; apply Z.eq_dec. Defined.

(** [luminance], the key function local to [sort_colors]:
    [0.299 * color[0] + 0.587 * color[1] + 0.114 * color[2]], evaluated
    left to right in binary64 after each integer is coerced. *)
Definition luminance (c : color) : result float :=
  r <- float_of_int (red c) ;;
  g <- float_of_int (green c) ;;
  b <- float_of_int (blue c) ;;
  Ok (add (add (mul lit_0_299 r) (mul lit_0_587 g)) (mul lit_0_114 b)).

(** The float [luminance] returns when no coercion overflows. *)
Definition luminance_value (c : color) : float :=
  add (add (mul lit_0_299 (of_Z (red c))) (mul lit_0_587 (of_Z (green c))))
      (mul lit_0_114 (of_Z (blue c))).

(** [sorted(xs, key=f)]: the keys are computed once, left to right, and
    the decorated list is sorted stably with [<] on the keys alone.  The
    stable order is the one of insertion from the right, each element
    going before the first one that is not smaller; on keys that are not
    NaN no other arrangement is sorted and stable (lemma
    [stable_sort_unique] below). *)
Section Sorted.
Context {A : Type}.

Fixpoint insert (p : float * A) (l : list (float * A)) : list (float * A) :=
  match l with
  | [] => [p]
  | q :: l' => if ltb (fst q) (fst p) then q :: insert p l' else p :: q :: l'
  end.

Fixpoint sort_keyed (l : list (float * A)) : list (float * A) :=
  match l with
  | [] => []
  | p :: l' => insert p (sort_keyed l')
  end.

Definition sorted (key : A -> result float) (l : list A) : result (list A) :=
  keys <- mapM key l ;;
  Ok (map snd (sort_keyed (combine keys l))).

(** [p] may stand before [q] in a sorted list: [q]'s key is not
    smaller. *)
Definition not_after (p q : float * A) : Prop := ltb (fst q) (fst p) = false.
End Sorted.

(** The four lists that the loop of [sort_colors] fills. *)
Record buckets : Type :=
  Buckets { reds : list color; greens : list color;
            blues : list color; rests : list color }.

Inductive bucket : Type := Red | Green | Blue | Rest.

Definition bucket_eqb (a b : bucket) : bool :=
  match a, b with
  | Red, Red | Green, Green | Blue, Blue | Rest, Rest => true
  | _, _ => false
  end.

(** The [if]/[elif] chain of the loop body: which list the colour is
    appended to. *)
Definition bucket_of (c : color) : bucket :=
  let max_color := Z.max (Z.max (red c) (green c)) (blue c) in
  if red c =? max_color then Red
  else if green c =? max_color then Green
  else if blue c =? max_color then Blue
  else Rest.

(** One iteration of the loop: [append] to the chosen list. *)
Definition append_color (b : buckets) (c : color) : buckets :=
  match bucket_of c with
  | Red => Buckets (reds b ++ [c]) (greens b) (blues b) (rests b)
  | Green => Buckets (reds b) (greens b ++ [c]) (blues b) (rests b)
  | Blue => Buckets (reds b) (greens b) (blues b ++ [c]) (rests b)
  | Rest => Buckets (reds b) (greens b) (blues b) (rests b ++ [c])
  end.

(** The [for] loop, from four empty lists. *)
Definition partition_colors (color_list : list color) : buckets :=
  fold_left append_color color_list (Buckets [] [] [] []).

Definition sort_colors (color_list : list color) : result (list color) :=
  let b := partition_colors color_list in
  reds <- sorted luminance (reds b) ;;
  greens <- sorted luminance (greens b) ;;
  blues <- sorted luminance (blues b) ;;
  rests <- sorted luminance (rests b) ;;
  Ok (reds ++ greens ++ blues ++ rests).

(** Colours whose channels all coerce to a finite float. *)
Definition representable (c : color) : bool :=
  (Z.abs (red c) <? overflow_bound) && (Z.abs (green c) <? overflow_bound)
  && (Z.abs (blue c) <? overflow_bound).

(** Colours proper: channel intensities are not negative. *)
Definition rgb (c : color) : bool :=
  representable c && (0 <=? red c) && (0 <=? green c) && (0 <=? blue c).

(** Membership of a colour in a bucket and in a luminance class. *)
Definition in_bucket (b : bucket) (c : color) : bool :=
  bucket_eqb (bucket_of c) b.

Definition has_luminance (k : float) (c : color) : bool :=
  match luminance c with
  | Ok k' => eqb k' k
  | Raise _ => false
  end.

(** A list of colours paired with their keys, and the sorted segment of
    one bucket written without the monad. *)
Definition decorate (l : list color) : list (float * color) :=
  map (fun c => (luminance_value c, c)) l.

Definition sorted_bucket (b : bucket) (l : list color) : list color :=
  map snd (sort_keyed (decorate (filter (in_bucket b) l))).

(** A decorated element carries the key of its colour. *)
Definition keyed_by_luminance (p : float * color) : Prop :=
  fst p = luminance_value (snd p).

(** Non-decreasing sequences of keys. *)
Definition ascending (ks : list float) : Prop :=
  StronglySorted (fun x y => leb x y = true) ks.

(** ** The cluster-count selector *)

(** Lines 122-123: [5 + len(unique_colors) // 6], then the conditional
    expression that bounds it. *)
Definition select_clusters_num (len_unique : Z) : Z :=
  let clusters_num := 5 + len_unique / 6 in
  if clusters_num <? 2 then 5
  else if clusters_num >? 24 then 24
  else clusters_num.

(** The decoded image: an array of shape (height, width, 3), a list of
    rows of pixels. *)
Definition image : Type := list (list pixel).

Definition row_eq_dec : forall a b : list pixel, {a = b} + {a <> b} :=
  list_eq_dec color_eq_dec.

(** [np.unique(image, axis=0)]: the sub-arrays along axis 0, the rows of
    the image, each kept once.  NumPy returns them sorted; the source
    uses only their number. *)
Definition np_unique_axis0 (img : image) : list (list pixel) :=
  nodup row_eq_dec img.

(** [image.reshape((image.shape[0] * image.shape[1], 3))]: the pixels in
    row-major order. *)
Definition reshape (img : image) : list pixel := concat img.

Definition clusters_num (img : image) : Z :=
  let unique_colors := np_unique_axis0 img in
  select_clusters_num (Z.of_nat (length unique_colors)).

(** The distinct pixel colours of an image, the quantity the variable
    [unique_colors] is named after. *)
Definition distinct_colors (img : image) : list pixel :=
  nodup color_eq_dec (reshape img).

(** ** The clusterer and the weight normalizer *)

(** A row of [cluster_centers_]: three float64 means. *)
Record center : Type := Center { c0 : float; c1 : float; c2 : float }.

(** What a fitted [KMeans] object exposes to the source. *)
Record KMeans : Type :=
  Fitted { cluster_centers_ : list center; labels_ : list Z }.

(** [np.unique] of a one-dimensional integer array (its length is all
    the source uses). *)
Definition np_unique (a : list Z) : list Z := nodup Z.eq_dec a.

(** [np.arange(start, stop)]. *)
Definition np_arange (start stop : Z) : list Z :=
  map (fun i => start + Z.of_nat i) (seq 0 (Z.to_nat (stop - start))).

Definition count (f : Z -> bool) (a : list Z) : Z :=
  Z.of_nat (length (filter f a)).

(** [np.histogram(a, bins=edges)] for increasing edges: bin [i] counts
    the values in [edges[i], edges[i+1]), the last bin being closed on
    the right as well. *)
Fixpoint np_histogram (a : list Z) (edges : list Z) : list Z :=
  match edges with
  | lo :: ((hi :: rest) as tl) =>
      count (fun x => (lo <=? x) &&
                      match rest with [] => x <=? hi | _ => x <? hi end) a
      :: np_histogram a tl
  | _ => []
  end.

(** [hist.sum()] on a float64 array, accumulated from [0.0].  NumPy may
    associate the additions pairwise on longer arrays; on the integral
    counts of the source every association gives the same float. *)
Definition np_sum (l : list float) : float :=
  fold_left add l (S754_zero false).

Definition centerize_histogram (clt : KMeans) : list float :=
  let num_labels :=
    np_arange 0 (Z.of_nat (length (np_unique (labels_ clt))) + 1) in
  let hist := np_histogram (labels_ clt) num_labels in
  let hist := map of_Z hist in
  let total := np_sum hist in
  map (fun h => div h total) hist.

(** [[int(c) for c in color[1]]] on one row of centres. *)
Definition int_center (c : center) : result color :=
  r <- int_of_float (c0 c) ;;
  g <- int_of_float (c1 c) ;;
  b <- int_of_float (c2 c) ;;
  Ok (RGB r g b).

(** ** The pipeline

    [fit k X] stands for [KMeans(n_clusters=k)] followed by [clt.fit(X)]:
    the library either raises or returns the fitted object. *)
Definition clusterer : Type := Z -> list pixel -> result KMeans.

Definition extract_colors (fit : clusterer) (img : image) : result (list color) :=
  let image_2d := reshape img in
  let k := clusters_num img in
  clt <- fit k image_2d ;;
  let hist := centerize_histogram clt in
  color_histogram <-
    mapM (fun color => int_center (snd color))
         (combine hist (cluster_centers_ clt)) ;;
  sort_colors color_histogram.

(** The guarantees of the library that the source relies on: [k] rows of
    centres, one label per sample, every label a cluster index. *)
Definition well_fitted (k : Z) (X : list pixel) (clt : KMeans) : bool :=
  (Z.of_nat (length (cluster_centers_ clt)) =? k)
  && (length (labels_ clt) =? length X)%nat
  && forallb (fun l => (0 <=? l) && (l <? k)) (labels_ clt).

(** The number of centres that survive the [zip] with the histogram. *)
Definition distinct_labels (clt : KMeans) : nat :=
  length (np_unique (labels_ clt)).

(** ** Vocabulary of the properties *)

(** [n] is the value of [x] cut toward zero: the quotient of the
    numerator of the exact value by its denominator. *)
Definition truncated (x : float) (n : Z) : Prop :=
  is_finite x = true /\
  n = Z.quot (Qnum (to_Q x)) (Zpos (Qden (to_Q x))).

(** [n] is an integer nearest to the value of [x]. *)
Definition rounds_to_nearest (x : float) (n : Z) : Prop :=
  is_finite x = true /\ (Qabs (to_Q x - inject_Z n) <= 1 # 2)%Q.

(** Every colour of the palette comes from a row of centres, channel by
    channel, through the conversion [conv]. *)
Definition channels_converted
    (conv : float -> Z -> Prop) (clt : KMeans) (palette : list color) : Prop :=
  forall col, In col palette ->
  exists ctr, In ctr (cluster_centers_ clt) /\
    conv (c0 ctr) (red col) /\ conv (c1 ctr) (green col) /\
    conv (c2 ctr) (blue col).



(** ** A concrete clusterer

    Used to run the pipeline on concrete images.  Like [KMeans.fit] it
    raises [ValueError] when there are fewer samples than clusters; it
    seeds the centres with the first [k] samples and labels every sample
    with the nearest seed, the lowest index winning ties, which is the
    assignment step of Lloyd's algorithm. *)
Definition sq_dist (p q : pixel) : Z :=
  (red p - red q) ^ 2 + (green p - green q) ^ 2 + (blue p - blue q) ^ 2.

Fixpoint nearest (p : pixel) (seeds : list pixel) (i best : Z) (d : Z) : Z :=
  match seeds with
  | [] => best
  | s :: seeds' =>
      if sq_dist p s <? d then nearest p seeds' (i + 1) i (sq_dist p s)
      else nearest p seeds' (i + 1) best d
  end.

Definition label_of (seeds : list pixel) (p : pixel) : Z :=
  match seeds with
  | [] => 0
  | s :: seeds' => nearest p seeds' 1 0 (sq_dist p s)
  end.

Definition center_of_pixel (p : pixel) : center :=
  Center (of_Z (red p)) (of_Z (green p)) (of_Z (blue p)).

Definition seed_fit : clusterer := fun k X =>
  if Z.of_nat (length X) <? k then Raise ValueError
  else
    let seeds := firstn (Z.to_nat k) X in
    Ok (Fitted (map center_of_pixel seeds) (map (label_of seeds) X)).

(** A clusterer whose answer is given. *)
Definition answer (clt : KMeans) : clusterer := fun _ _ => Ok clt.

(** Sample inputs. *)
Definition sample_palette : list color :=
  [RGB 100 50 40; RGB 3 9 2; RGB 111 51 6; RGB 0 0 255; RGB 5 5 5;
   RGB 7 200 200].

(** Six pixels of one colour. *)
Definition solid_image : image :=
  [ [RGB 200 100 50; RGB 200 100 50; RGB 200 100 50];
    [RGB 200 100 50; RGB 200 100 50; RGB 200 100 50] ].

(** What [KMeans] fits on [solid_image] with five clusters: duplicate
    centres and a single label. *)
Definition solid_clt : KMeans :=
  Fitted (repeat (Center (of_Z 200) (of_Z 100) (of_Z 50)) 5) (repeat 0 6).

(** Twelve colours in one row, and the same pixels in one column. *)
Definition strip_image : image :=
  [ map (fun i => RGB (20 * i) 10 5) (np_arange 0 12) ].

Definition column_image : image :=
  map (fun p => [p]) (reshape strip_image).

(** Eight pixels in one row; the first four form the cluster of mean
    (2.75, 0, 0), the others are clusters of their own. *)
Definition mean_image : image :=
  [ [RGB 2 0 0; RGB 3 0 0; RGB 3 0 0; RGB 3 0 0;
     RGB 100 0 0; RGB 0 100 0; RGB 0 0 100; RGB 50 50 50] ].

Definition lit_2_75 : float := S754_finite false 6192449487634432 (-51).

Definition mean_clt : KMeans :=
  Fitted [ Center lit_2_75 (of_Z 0) (of_Z 0);
           center_of_pixel (RGB 100 0 0); center_of_pixel (RGB 0 100 0);
           center_of_pixel (RGB 0 0 100); center_of_pixel (RGB 50 50 50) ]
         [0; 0; 0; 0; 1; 2; 3; 4].

(** Three red and three blue pixels, and a fit whose blue cluster is
    the last of five. *)
Definition two_tone_image : image :=
  [ [RGB 255 0 0; RGB 255 0 0; RGB 255 0 0;
     RGB 0 0 255; RGB 0 0 255; RGB 0 0 255] ].

Definition two_tone_clt : KMeans :=
  Fitted (repeat (center_of_pixel (RGB 255 0 0)) 4
          ++ [center_of_pixel (RGB 0 0 255)])
         [0; 0; 0; 4; 4; 4].

(** The float literals of the weight scenario. *)
Definition lit_0_3 : float := S754_finite false 5404319552844595 (-54).
Definition lit_0_2 : float := S754_finite false 7205759403792794 (-55).
Definition lit_0_5 : float := S754_finite false 4503599627370496 (-53).
Definition lit_1_0 : float := S754_finite false 4503599627370496 (-52).

(** ** The controller: the image list and what is displayed *)

Module App.

(** Exceptions of the controller: those of the pipeline, and the
    [IndexError] of list subscripts. *)
Inductive failure : Type :=
| IndexError
| Raised (e : exn).

Inductive outcome (A : Type) : Type :=
| Done (a : A)
| Failed (f : failure).

Arguments Done {A} a.
Arguments Failed {A} f.

Definition lift {A : Type} (r : result A) : outcome A :=
  match r with
  | Ok a => Done a
  | Raise e => Failed (Raised e)
  end.

(** The position a Python subscript [i] denotes in a list: negative
    subscripts count from the end, anything else is out of range. *)
Definition position {A : Type} (l : list A) (i : Z) : option nat :=
  let n := Z.of_nat (length l) in
  if (0 <=? i) && (i <? n) then Some (Z.to_nat i)
  else if (- n <=? i) && (i <? 0) then Some (Z.to_nat (i + n))
  else None.

(** [l[i]]. *)
Definition getitem {A : Type} (l : list A) (i : Z) : outcome A :=
  match position l i with
  | Some k =>
      match nth_error l k with
      | Some x => Done x
      | None => Failed IndexError
      end
  | None => Failed IndexError
  end.

(** [del l[i]]. *)
Definition delitem {A : Type} (l : list A) (i : Z) : outcome (list A) :=
  match position l i with
  | Some k => Done (firstn k l ++ skipn (S k) l)
  | None => Failed IndexError
  end.

(** The library's guarantee the invariant rests on: as many rows of
    centres as clusters were requested. *)
Definition returns_k_centers (fit : clusterer) (img : image) : Prop :=
  forall clt : KMeans,
    fit (clusters_num img) (reshape img) = Ok clt ->
    Z.of_nat (length (cluster_centers_ clt)) = clusters_num img.

Section Controller.

(** [QPixmap] and the conversion [cv2qt_image] belong to the toolkit. *)
Variable pixmap : Type.
Variable cv2qt_image : image -> pixmap.
Variable fit : clusterer.

(** The calls that the controller makes on its widgets, in order:
    [color_display.reset_layout()], [GUI.Shape(color_display, 'circle',
    ..., name=f'color_{idx}', fill_color=color, grid_location=(row, col))],
    [preview_image.clear()] and
    [preview_image.set_image_background(pixmap=image)]. *)
Inductive gui_call : Type :=
| ResetLayout
| NewShape (idx : nat) (fill_color : color) (row col : Z)
| ClearPreview
| SetImageBackground (p : pixmap).

(** The attributes of the [ColorHunter] object that its methods read
    and write, with the log of widget calls. *)
Record state : Type :=
  State { image_data_list : list (pixmap * list color);
          current_image : option pixmap;
          gui : list gui_call }.

(** One iteration of the loop of [update_color_pallet]: the state is
    [(row, col)] and the calls made so far. *)
Definition place (st : Z * Z * list gui_call) (ic : nat * color)
  : Z * Z * list gui_call :=
  let '(row, col, calls) := st in
  let calls := calls ++ [NewShape (fst ic) (snd ic) row col] in
  let col := col + 1 in
  if col =? 6 then (row + 1, 0, calls) else (row, col, calls).

(** [enumerate(color_list)]. *)
Definition enumerate (color_list : list color) : list (nat * color) :=
  combine (seq 0 (length color_list)) color_list.

Definition update_color_pallet (color_list : list color) : list gui_call :=
  snd (fold_left place (enumerate color_list) (0, 0, [ResetLayout])).

(** [update_preview_image(image, mode)]: [None] stands for the call
    [update_preview_image('', 'reset')]. *)
Definition update_preview_image (image : option pixmap) : list gui_call :=
  match image with
  | None => [ClearPreview]
  | Some p => [SetImageBackground p]
  end.

(** [add_image], once [get_image] has returned the decoded image. *)
Definition add_image (img : image) (st : state) : outcome state :=
  match lift (extract_colors fit img) with
  | Failed f => Failed f
  | Done image_color_list =>
      Done (State (image_data_list st ++ [(cv2qt_image img, image_color_list)])
                  (current_image st) (gui st))
  end.

(** [update_change]; [index] is the row of the current item of the list
    widget, [-1] when there is none. *)
Definition update_change (index : Z) (st : state) : outcome state :=
  if index =? -1 then Done st
  else
    let len := Z.of_nat (length (image_data_list st)) in
    let index := if index >=? len - 1 then len - 1 else index in
    match getitem (image_data_list st) index with
    | Failed f => Failed f
    | Done entry =>
        Done (State (image_data_list st) (Some (fst entry))
                (gui st ++ update_color_pallet (snd entry)
                 ++ update_preview_image (Some (fst entry))))
    end.

Definition delete_image (index : Z) (st : state) : outcome state :=
  match delitem (image_data_list st) index with
  | Failed f => Failed f
  | Done l =>
      Done (State l (current_image st)
              (if (length l =? 0)%nat
               then gui st ++ update_preview_image None ++ [ResetLayout]
               else gui st))
  end.

(** Where the shape of index [idx] is expected in a grid of six
    columns. *)
Definition shape_at (ic : nat * color) : gui_call :=
  NewShape (fst ic) (snd ic) (Z.of_nat (fst ic) / 6) (Z.of_nat (fst ic) mod 6).

(** Every stored palette has at most 24 colours. *)
Definition palettes_bounded (st : state) : Prop :=
  Forall (fun entry => (length (snd entry) <= 24)%nat) (image_data_list st).

(** The object as [__init__] leaves it, and the states that the three
    callbacks of the list widget lead to, the clusterer keeping its
    guarantee. *)
Definition init : state := State [] None [].

Inductive reachable : state -> Prop :=
| reach_init : reachable init
| reach_add (img : image) (st st' : state) :
    reachable st -> returns_k_centers fit img ->
    add_image img st = Done st' -> reachable st'
| reach_update (index : Z) (st st' : state) :
    reachable st -> update_change index st = Done st' -> reachable st'
| reach_delete (index : Z) (st st' : state) :
    reachable st -> delete_image index st = Done st' -> reachable st'.

End Controller.

Arguments ResetLayout {pixmap}.
Arguments NewShape {pixmap} idx fill_color row col.
Arguments ClearPreview {pixmap}.
Arguments SetImageBackground {pixmap} p.
Arguments State {pixmap} _ _ _.
Arguments image_data_list {pixmap} _.
Arguments current_image {pixmap} _.
Arguments gui {pixmap} _.
Arguments update_color_pallet {pixmap} color_list.
Arguments update_preview_image {pixmap} image.
Arguments update_change {pixmap} index st.
Arguments delete_image {pixmap} index st.
Arguments shape_at {pixmap} ic.
Arguments palettes_bounded {pixmap} st.
Arguments place {pixmap} st ic.
Arguments init {pixmap}.

End App.

(** ** Tool tips of the swatches *)

Module Tooltip.

Import Stdlib.Strings.String Stdlib.Strings.Ascii.
Local Open Scope string_scope.

(** [sub in s] on Python strings. *)
Fixpoint contains (sub s : string) : bool :=
  prefix sub s
  || match s with
     | EmptyString => false
     | String _ s' => contains sub s'
     end.

(** [s[:-n]] for a positive [n]. *)
Definition drop_last (n : nat) (s : string) : string :=
  substring 0 (length s - n) s.

(** What [copy_color(color, widget)] leaves behind: the tool tip of the
    widget, the text shown by [QToolTip.showText] and the text handed to
    [pyperclip.copy]. *)
Record copied : Type :=
  Copied { toolTip : string; shown : string; clipboard : string }.

Definition copy_color (color : string) (tip : string) : copied :=
  let tip := if negb (contains "copied." tip) then tip ++ " copied." else tip in
  Copied tip tip color.

(** [reset_copy_message(widget)], on the tool tip of the widget. *)
Definition reset_copy_message (tip : string) : string :=
  if contains "copied" tip then drop_last 7 tip else tip.

(** The tool tip after the mouse was released on the swatch, then left
    it. *)
Definition click_and_leave (color : string) (tip : string) : string :=
  reset_copy_message (toolTip (copy_color color tip)).

Fixpoint spaces (n : nat) : string :=
  match n with
  | O => ""
  | S n' => " " ++ spaces n'
  end.

Fixpoint space_free (s : string) : bool :=
  match s with
  | EmptyString => true
  | String c s' => negb (Ascii.eqb c " ") && space_free s'
  end.

End Tooltip.

(** ** Vocabulary of the further properties *)

(** Channels of an 8-bit image, and centres that lie among them. *)
Definition rgb8 (c : color) : bool :=
  (0 <=? red c) && (red c <=? 255) && (0 <=? green c) && (green c <=? 255)
  && (0 <=? blue c) && (blue c <=? 255).

Definition in_byte_range (x : float) : Prop :=
  is_finite x = true /\ (0 <= to_Q x)%Q /\ (to_Q x <= 255)%Q.

Definition center_in_range (c : center) : Prop :=
  in_byte_range (c0 c) /\ in_byte_range (c1 c) /\ in_byte_range (c2 c).

(** ** Vocabulary of the order of luminance *)

(** The luminance 0.299 R + 0.587 G + 0.114 B of a colour, as an exact
    rational. *)
Definition bt601_exact (c : color) : Q :=
  ((299 # 1000) * inject_Z (red c) + (587 # 1000) * inject_Z (green c)
   + (114 # 1000) * inject_Z (blue c))%Q.

(** A thousand times the exact luminance, an integer. *)
Definition milli_luminance (c : color) : Z :=
  299 * red c + 587 * green c + 114 * blue c.

(** The same sum evaluated in binary64: each weight is the float nearest
    to its decimal, each product and each sum is rounded to nearest, from
    left to right. *)
Definition bt601_binary64 (c : color) : float :=
  add (add (mul (div (of_Z 299) (of_Z 1000)) (of_Z (red c)))
           (mul (div (of_Z 587) (of_Z 1000)) (of_Z (green c))))
      (mul (div (of_Z 114) (of_Z 1000)) (of_Z (blue c))).

(** Classes of equal luminance, for the rounded and for the exact
    value. *)
Definition has_binary64_luminance (k : float) (c : color) : bool :=
  eqb (bt601_binary64 c) k.

Definition has_exact_luminance (q : Q) (c : color) : bool :=
  Qeq_bool (bt601_exact c) q.

(** Within every bucket, the colours of [out] never decrease in exact
    luminance. *)
Definition ascending_exact_luminance (out : list color) : Prop :=
  forall b : bucket,
    StronglySorted (fun x y => (bt601_exact x <= bt601_exact y)%Q)
                   (filter (in_bucket b) out).

(** Within every bucket, the colours of one exact luminance stand in
    [out] in the order they have in [l]. *)
Definition stable_on_exact_luminance (l out : list color) : Prop :=
  forall (b : bucket) (q : Q),
    filter (fun c => in_bucket b c && has_exact_luminance q c) out
    = filter (fun c => in_bucket b c && has_exact_luminance q c) l.

(** The value of a float without sign, in units of 2^-128. *)
Definition val (x : float) : Z :=
  match x with
  | S754_finite false m e => Z.pos m * 2 ^ (e + 128)
  | _ => 0
  end.

(** Zero, or a normal float without sign whose exponent lies in
    [lo, hi]. *)
Definition regular (lo hi : Z) (x : float) : bool :=
  match x with
  | S754_zero false => true
  | S754_finite false m e =>
      (2 ^ 52 <=? Z.pos m) && (Z.pos m <? 2 ^ 53) && (lo <=? e) && (e <=? hi)
  | _ => false
  end.

(** The product of the weight [lit], which stands for [w / 1000], by the
    channel [n] is regular and within 2^-44 of [w * n / 1000]. *)
Definition product_close (lit : float) (w n : Z) : bool :=
  regular (-60) (-45) (mul lit (of_Z n))
  && (Z.abs (1000 * val (mul lit (of_Z n)) - w * n * 2 ^ 128) <=? 1000 * 2 ^ 84).

Definition products_close (n : Z) : bool :=
  product_close lit_0_299 299 n && product_close lit_0_587 587 n
  && product_close lit_0_114 114 n.

(** The values of an 8-bit channel. *)
Definition channel_values : list Z := map Z.of_nat (seq 0 256).

(** ** Vocabulary of the conversion of the centres *)

(** The colour [col] is the row [ctr] of centres converted channel by
    channel through [conv]. *)
Definition center_converted
    (conv : float -> Z -> Prop) (ctr : center) (col : color) : Prop :=
  conv (c0 ctr) (red col) /\ conv (c1 ctr) (green col) /\
  conv (c2 ctr) (blue col).

(** The palette is made of the first [n] rows of centres, converted
    through [conv] and rearranged. *)
Definition first_centers_converted
    (conv : float -> Z -> Prop) (n : nat) (clt : KMeans)
    (palette : list color) : Prop :=
  exists cs : list color,
    Forall2 (center_converted conv) (firstn n (cluster_centers_ clt)) cs /\
    Permutation cs palette.

(** The arrangement [sort_colors] is to give: the red, the green and the
    blue colours in this order, each segment with binary64 luminances
    that never decrease. *)
Definition bucketed_by_luminance (palette : list color) : Prop :=
  palette = filter (in_bucket Red) palette ++ filter (in_bucket Green) palette
            ++ filter (in_bucket Blue) palette /\
  forall b : bucket,
    ascending (map bt601_binary64 (filter (in_bucket b) palette)).

(* ================================================================== *)
(** * Part II: properties                                              *)
(* ================================================================== *)

(** ** The order of binary64 keys *)

Module Binary64Facts.

Ltac split_compare :=
  repeat match goal with
  | |- context [Pos.compare_cont Eq ?x ?y] =>
      change (Pos.compare_cont Eq x y) with (Pos.compare x y)
  | H : context [Pos.compare_cont Eq ?x ?y] |- _ =>
      change (Pos.compare_cont Eq x y) with (Pos.compare x y) in H
  end;
  repeat match goal with
  | |- context [Z.compare ?x ?y] => destruct (Z.compare_spec x y)
  | H : context [Z.compare ?x ?y] |- _ => destruct (Z.compare_spec x y)
  | |- context [Pos.compare ?x ?y] => destruct (Pos.compare_spec x y)
  | H : context [Pos.compare ?x ?y] |- _ => destruct (Pos.compare_spec x y)
  end.

Ltac by_cases :=
  unfold ltb, leb, eqb, SFltb, SFleb, SFeqb, SFcompare;
  intros;
  repeat match goal with
  | x : float |- _ => destruct x as [[]|[]| |[] ? ?]
  | x : spec_float |- _ => destruct x as [[]|[]| |[] ? ?]
  end;
  simpl in *; try congruence;
  split_compare; simpl in *; subst; try congruence; try lia.

(** The literals are the correctly rounded quotients of their decimal
    digits. *)
Lemma literals_correctly_rounded :
  div (of_Z 299) (of_Z 1000) = lit_0_299 /\
  div (of_Z 587) (of_Z 1000) = lit_0_587 /\
  div (of_Z 114) (of_Z 1000) = lit_0_114.
Proof. vm_compute. repeat split; reflexivity. Qed.

Lemma ltb_asym (a b : float) : ltb a b = true -> ltb b a = false.
Proof. revert a b. by_cases. Qed.

Lemma leb_trans (a b c : float) :
  leb a b = true -> leb b c = true -> leb a c = true.
Proof. revert a b c. by_cases. Qed.

Lemma leb_of_not_ltb (a b : float) :
  nonneg a = true -> nonneg b = true -> ltb b a = false -> leb a b = true.
Proof. revert a b. unfold nonneg. by_cases. Qed.

Lemma eqb_of_leb (a b : float) :
  leb a b = true -> leb b a = true -> eqb a b = true /\ eqb b a = true.
Proof. revert a b. by_cases; split; congruence. Qed.

Lemma eqb_refl (a : float) : nonneg a = true -> eqb a a = true.
Proof.
  revert a. unfold nonneg. by_cases.
Qed.

Lemma eqb_below (q p k : float) :
  eqb p k = true -> ltb q p = true -> eqb q k = false.
Proof. revert q p k. by_cases. Qed.

(** Rounding a mantissa that is not negative never yields NaN nor a
    minus sign. *)

Lemma shr_1_nonneg (mrs : shr_record) :
  0 <= shr_m mrs -> 0 <= shr_m (shr_1 mrs).
Proof.
  destruct mrs as [m r s]; simpl.
  destruct m as [|[p|p|]|p]; simpl; lia.
Qed.

Lemma iter_shr_1_nonneg (p : positive) :
  forall mrs, 0 <= shr_m mrs -> 0 <= shr_m (iter_pos shr_1 p mrs).
Proof.
  induction p as [p IH|p IH|]; simpl; intros mrs H.
  - apply IH, IH, shr_1_nonneg, H.
  - apply IH, IH, H.
  - apply shr_1_nonneg, H.
Qed.

Lemma shr_fexp_nonneg (m e : Z) (l : location) :
  0 <= m -> 0 <= shr_m (fst (shr_fexp prec emax m e l)).
Proof.
  intros H. unfold shr_fexp, shr.
  assert (H0 : 0 <= shr_m (shr_record_of_loc m l))
    by (destruct l as [|[]]; simpl; exact H).
  destruct (fexp prec emax (Zdigits2 m + e) - e) as [|p|p]; simpl;
    try exact H0.
  apply iter_shr_1_nonneg, H0.
Qed.

Lemma round_nearest_even_nonneg (m : Z) (l : location) :
  0 <= m -> 0 <= round_nearest_even m l.
Proof.
  intros H. destruct l as [|[]]; simpl; try lia.
  destruct (Z.even m); lia.
Qed.

Lemma binary_round_aux_nonneg (m e : Z) (l : location) :
  0 <= m -> nonneg (binary_round_aux prec emax false m e l) = true.
Proof.
  intros H. unfold binary_round_aux.
  pose proof (shr_fexp_nonneg m e l H) as H1.
  destruct (shr_fexp prec emax m e l) as [mrs1 e1]; simpl in H1.
  pose proof (shr_fexp_nonneg _ e1 loc_Exact
                (round_nearest_even_nonneg _ (loc_of_shr_record mrs1) H1)) as H2.
  destruct (shr_fexp prec emax _ e1 loc_Exact) as [mrs2 e2]; simpl in H2.
  destruct (shr_m mrs2) as [|p|p]; try reflexivity; try lia.
  destruct (e2 <=? emax - prec); reflexivity.
Qed.

Lemma binary_normalize_nonneg (m e : Z) :
  0 <= m -> nonneg (binary_normalize prec emax m e false) = true.
Proof.
  intros H. destruct m as [|p|p]; simpl; try reflexivity; try lia.
  unfold binary_round.
  destruct (shl_align p e _) as [mz ez].
  apply binary_round_aux_nonneg. lia.
Qed.

Lemma of_Z_nonneg (n : Z) : 0 <= n -> nonneg (of_Z n) = true.
Proof. apply binary_normalize_nonneg. Qed.

Lemma mul_nonneg (m : positive) (e : Z) (y : float) :
  nonneg y = true -> nonneg (mul (S754_finite false m e) y) = true.
Proof.
  destruct y as [[]|[]| |[] my ey]; simpl; try discriminate; try reflexivity.
  intros _. apply binary_round_aux_nonneg. lia.
Qed.

Lemma add_nonneg (x y : float) :
  nonneg x = true -> nonneg y = true -> nonneg (add x y) = true.
Proof.
  destruct x as [[]|[]| |[] mx ex], y as [[]|[]| |[] my ey];
    try discriminate; try reflexivity.
  intros _ _. unfold add, SFadd. apply binary_normalize_nonneg.
  simpl. lia.
Qed.

End Binary64Facts.

Import Binary64Facts.

(** ** Rounding error of the luminance

    A binary64 sum or product of regular floats is regular and differs
    from the exact one by at most half a unit of its last place; on the
    channels of an 8-bit image the three products are checked one by
    one. *)

Lemma leb_not_ltb (a b : float) : leb a b = true -> ltb b a = false.
Proof. revert a b. by_cases. Qed.

Lemma digits2_pos_bounds (p : positive) :
  2 ^ (Z.pos (digits2_pos p) - 1) <= Z.pos p < 2 ^ Z.pos (digits2_pos p).
Proof.
  induction p as [p IH|p IH|]; simpl digits2_pos.
  - rewrite Pos2Z.inj_succ.
    replace (Z.succ (Z.pos (digits2_pos p)) - 1) with (Z.succ (Z.pos (digits2_pos p) - 1)) by lia.
    rewrite !Z.pow_succ_r by lia. lia.
  - rewrite Pos2Z.inj_succ.
    replace (Z.succ (Z.pos (digits2_pos p)) - 1) with (Z.succ (Z.pos (digits2_pos p) - 1)) by lia.
    rewrite !Z.pow_succ_r by lia. lia.
  - simpl. lia.
Qed.

Lemma digits2_pos_unique (p : positive) (k : Z) :
  2 ^ (k - 1) <= Z.pos p < 2 ^ k -> Z.pos (digits2_pos p) = k.
Proof.
  intros [Hlo Hhi]. destruct (digits2_pos_bounds p) as [Dlo Dhi].
  assert (0 < k).
  { destruct (Z.ltb_spec 0 k); [assumption|].
    destruct (Z.eq_dec k 0) as [E|E].
    - subst k. simpl in Hhi. lia.
    - rewrite Z.pow_neg_r in Hhi by lia. lia. }
  assert (Z.pos (digits2_pos p) - 1 < k).
  { apply (Z.pow_lt_mono_r_iff 2); lia. }
  assert (k - 1 < Z.pos (digits2_pos p)).
  { apply (Z.pow_lt_mono_r_iff 2); lia. }
  lia.
Qed.

Lemma shr_1_half (mrs : shr_record) :
  0 <= shr_m mrs -> shr_m (shr_1 mrs) = shr_m mrs / 2.
Proof.
  destruct mrs as [m r s]; simpl. intros H.
  destruct m as [|[p|p|]|p]; simpl; try lia; try reflexivity.
  - rewrite Pos2Z.inj_xI. apply Z.div_unique with 1; lia.
  - rewrite Pos2Z.inj_xO. apply Z.div_unique with 0; lia.
Qed.

Lemma pow2_xO (p : positive) : 2 ^ Z.pos p~0 = 2 ^ Z.pos p * 2 ^ Z.pos p.
Proof. rewrite Pos2Z.inj_xO, <- Z.pow_add_r by lia. f_equal. lia. Qed.

Lemma pow2_xI (p : positive) : 2 ^ Z.pos p~1 = 2 * (2 ^ Z.pos p * 2 ^ Z.pos p).
Proof.
  rewrite Pos2Z.inj_xI, <- Z.pow_add_r by lia.
  replace (2 * Z.pos p + 1) with (Z.succ (Z.pos p + Z.pos p)) by lia.
  rewrite Z.pow_succ_r by lia. reflexivity.
Qed.

Lemma iter_shr_1_div (p : positive) : forall mrs : shr_record,
  0 <= shr_m mrs ->
  shr_m (iter_pos shr_1 p mrs) = shr_m mrs / 2 ^ Z.pos p /\
  0 <= shr_m (iter_pos shr_1 p mrs).
Proof.
  induction p as [p IH|p IH|]; intros mrs H; simpl iter_pos.
  - assert (H1 : 0 <= shr_m (shr_1 mrs))
      by (rewrite shr_1_half by exact H; apply Z.div_pos; lia).
    assert (Hp : 0 < 2 ^ Z.pos p) by (apply Z.pow_pos_nonneg; lia).
    destruct (IH _ H1) as [E1 P1]. destruct (IH _ P1) as [E2 P2].
    split; [|exact P2].
    rewrite E2, E1, shr_1_half by exact H.
    rewrite !Z.div_div by lia. rewrite pow2_xI. reflexivity.
  - assert (Hp : 0 < 2 ^ Z.pos p) by (apply Z.pow_pos_nonneg; lia).
    destruct (IH _ H) as [E1 P1]. destruct (IH _ P1) as [E2 P2].
    split; [|exact P2].
    rewrite E2, E1.
    rewrite !Z.div_div by lia. rewrite pow2_xO. reflexivity.
  - rewrite shr_1_half by exact H. split; [reflexivity|apply Z.div_pos; lia].
Qed.

Lemma fexp_normal (x : Z) : -1074 < x - 53 -> fexp prec emax x = x - 53.
Proof. unfold fexp, emin, prec, emax. lia. Qed.

Lemma round_nearest_even_bounds (m : Z) (l : location) :
  m <= round_nearest_even m l <= m + 1.
Proof.
  destruct l as [|[]]; simpl; try lia. destruct (Z.even m); lia.
Qed.

(** The first shift of the rounding keeps the 53 leading digits. *)
Lemma first_shift (m0 : positive) (e0 : Z) :
  53 <= Z.pos (digits2_pos m0) ->
  -1074 < Z.pos (digits2_pos m0) + e0 - 53 ->
  exists mrs : shr_record,
    shr_fexp prec emax (Z.pos m0) e0 loc_Exact
    = (mrs, Z.pos (digits2_pos m0) + e0 - 53) /\
    shr_m mrs = Z.pos m0 / 2 ^ (Z.pos (digits2_pos m0) - 53).
Proof.
  intros Hd HF. unfold shr_fexp, shr.
  cbn [Zdigits2 shr_record_of_loc].
  rewrite (fexp_normal _ HF).
  replace (Z.pos (digits2_pos m0) + e0 - 53 - e0)
    with (Z.pos (digits2_pos m0) - 53) by lia.
  destruct (Z.pos (digits2_pos m0) - 53) as [|p|p] eqn:Ep; try lia.
  - eexists. split; [f_equal; lia|]. simpl. rewrite Z.div_1_r. reflexivity.
  - eexists. split; [f_equal; lia|].
    apply iter_shr_1_div. simpl. lia.
Qed.

(** The second shift absorbs the carry of the rounding, if any. *)
Lemma second_shift (M F : Z) :
  2 ^ 52 <= M <= 2 ^ 53 -> -1074 < F ->
  exists (mrs : shr_record) (e : Z),
    shr_fexp prec emax M F loc_Exact = (mrs, e) /\
    2 ^ 52 <= shr_m mrs < 2 ^ 53 /\
    F <= e <= F + 1 /\
    shr_m mrs * 2 ^ (e - F) = M.
Proof.
  intros HM HF. destruct M as [|q|q]; try lia.
  unfold shr_fexp, shr. cbn [Zdigits2 shr_record_of_loc].
  destruct (Z.ltb_spec (Z.pos q) (2 ^ 53)) as [Hlt|Hge].
  - rewrite (digits2_pos_unique q 53) by (simpl; lia).
    rewrite fexp_normal by lia.
    replace (53 + F - 53 - F) with 0 by lia.
    eexists. exists F. split; [reflexivity|]. simpl shr_m.
    rewrite Z.sub_diag. simpl. lia.
  - assert (E : Z.pos q = 2 ^ 53) by lia.
    rewrite (digits2_pos_unique q 54) by (simpl; lia).
    rewrite fexp_normal by lia.
    replace (54 + F - 53 - F) with 1 by lia.
    cbn [iter_pos].
    eexists. exists (F + 1). split; [reflexivity|].
    rewrite shr_1_half by (simpl; lia). simpl shr_m. rewrite E.
    replace (F + 1 - F) with 1 by lia.
    change (2 ^ 53 / 2) with (2 ^ 52). simpl. lia.
Qed.

(** Rounding a mantissa of at least 53 digits: the result is a normal
    float within one unit of its last place. *)
Lemma round_core (m0 : positive) (e0 : Z) :
  53 <= Z.pos (digits2_pos m0) ->
  -1074 < Z.pos (digits2_pos m0) + e0 - 53 ->
  Z.pos (digits2_pos m0) + e0 - 53 + 1 <= 971 ->
  exists (m : positive) (e : Z),
    binary_round_aux prec emax false (Z.pos m0) e0 loc_Exact
    = S754_finite false m e /\
    2 ^ 52 <= Z.pos m < 2 ^ 53 /\
    Z.pos (digits2_pos m0) + e0 - 53 <= e
      <= Z.pos (digits2_pos m0) + e0 - 53 + 1 /\
    Z.abs (Z.pos m * 2 ^ (e - e0) - Z.pos m0)
      <= 2 ^ (Z.pos (digits2_pos m0) - 53).
Proof.
  intros Hd HF Hmax.
  set (d := Z.pos (digits2_pos m0)) in *.
  destruct (digits2_pos_bounds m0) as [Dlo Dhi]. fold d in Dlo, Dhi.
  unfold binary_round_aux.
  destruct (first_shift m0 e0 Hd HF) as [mrs1 [E1 Hm1]]. fold d in E1, Hm1.
  rewrite E1.
  assert (Hp : 0 < 2 ^ (d - 53)) by (apply Z.pow_pos_nonneg; lia).
  assert (Hsplit : 2 ^ d = 2 ^ 53 * 2 ^ (d - 53)).
  { rewrite <- Z.pow_add_r by lia. f_equal. lia. }
  assert (Hsplit' : 2 ^ (d - 1) = 2 ^ 52 * 2 ^ (d - 53)).
  { rewrite <- Z.pow_add_r by lia. f_equal. lia. }
  assert (Hm1' : 2 ^ 52 <= shr_m mrs1 < 2 ^ 53).
  { rewrite Hm1. split.
    - apply Z.div_le_lower_bound; lia.
    - apply Z.div_lt_upper_bound; lia. }
  pose proof (round_nearest_even_bounds (shr_m mrs1) (loc_of_shr_record mrs1))
    as HM.
  set (M := round_nearest_even (shr_m mrs1) (loc_of_shr_record mrs1)) in *.
  destruct (second_shift M (d + e0 - 53)) as (mrs2 & e2 & E2 & Hm2 & He2 & Hv);
    [lia|lia|].
  rewrite E2.
  destruct (shr_m mrs2) as [|m|m] eqn:Em; try lia.
  destruct (Z.leb_spec e2 (emax - prec)) as [_|Hbad];
    [|unfold emax, prec in Hbad; lia].
  exists m, e2. split; [reflexivity|]. split; [exact Hm2|]. split; [exact He2|].
  (* the error *)
  assert (Hdiv : shr_m mrs1 * 2 ^ (d - 53) <= Z.pos m0
                 < (shr_m mrs1 + 1) * 2 ^ (d - 53)).
  { rewrite Hm1.
    pose proof (Z.div_mod (Z.pos m0) (2 ^ (d - 53))) as Hdm.
    pose proof (Z.mod_pos_bound (Z.pos m0) (2 ^ (d - 53)) Hp). nia. }
  replace (e2 - e0) with ((e2 - (d + e0 - 53)) + (d - 53)) by lia.
  rewrite Z.pow_add_r by lia.
  rewrite Z.mul_assoc, Hv. nia.
Qed.

Lemma regular_cases (lo hi : Z) (x : float) :
  regular lo hi x = true ->
  x = S754_zero false \/
  exists (m : positive) (e : Z),
    x = S754_finite false m e /\ 2 ^ 52 <= Z.pos m < 2 ^ 53 /\ lo <= e <= hi.
Proof.
  destruct x as [[]|[]| |[] m e]; simpl; try discriminate; intros H.
  - left. reflexivity.
  - right. exists m, e.
    apply andb_prop in H as [H H4]. apply andb_prop in H as [H H3].
    apply andb_prop in H as [H1 H2].
    apply Z.leb_le in H1, H3, H4. apply Z.ltb_lt in H2.
    split; [reflexivity|]. lia.
Qed.

(** On regular floats [<] is the order of the values. *)
Lemma ltb_val (x y : float) :
  regular (-128) 0 x = true -> regular (-128) 0 y = true ->
  ltb x y = true <-> val x < val y.
Proof.
  intros Hx Hy.
  destruct (regular_cases _ _ _ Hx) as [Ex|(mx & ex & Ex & Hmx & Hex)];
    destruct (regular_cases _ _ _ Hy) as [Ey|(my & ey & Ey & Hmy & Hey)];
    subst x y; unfold ltb, SFltb; cbn [SFcompare val].
  - split; [discriminate|lia].
  - assert (0 < 2 ^ (ey + 128)) by (apply Z.pow_pos_nonneg; lia).
    split; [intros _; apply Z.mul_pos_pos; lia|reflexivity].
  - assert (0 < 2 ^ (ex + 128)) by (apply Z.pow_pos_nonneg; lia).
    split; [discriminate|].
    intros Hc. assert (0 < Z.pos mx * 2 ^ (ex + 128))
      by (apply Z.mul_pos_pos; lia). lia.
  - assert (Hpx : 0 < 2 ^ (ex + 128)) by (apply Z.pow_pos_nonneg; lia).
    assert (Hpy : 0 < 2 ^ (ey + 128)) by (apply Z.pow_pos_nonneg; lia).
    change (Pos.compare_cont Eq mx my) with (Pos.compare mx my).
    destruct (Z.compare_spec ex ey) as [E|L|G].
    + subst ey. destruct (Pos.compare_spec mx my) as [E|L|G].
      * subst. split; [discriminate|lia].
      * split; [nia|reflexivity].
      * split; [discriminate|nia].
    + assert (2 ^ (ey + 128) = 2 ^ (ex + 128) * 2 ^ (ey - ex))
        by (rewrite <- Z.pow_add_r by lia; f_equal; lia).
      assert (2 <= 2 ^ (ey - ex))
        by (change 2 with (2 ^ 1) at 1; apply Z.pow_le_mono_r; lia).
      split; [nia|reflexivity].
    + assert (2 ^ (ex + 128) = 2 ^ (ey + 128) * 2 ^ (ex - ey))
        by (rewrite <- Z.pow_add_r by lia; f_equal; lia).
      assert (2 <= 2 ^ (ex - ey))
        by (change 2 with (2 ^ 1) at 1; apply Z.pow_le_mono_r; lia).
      split; [discriminate|nia].
Qed.

Lemma iter_xO (m d : positive) :
  Z.pos (Pos.iter xO m d) = Z.pos m * 2 ^ Z.pos d.
Proof.
  induction d as [|d IH] using Pos.peano_ind.
  - simpl. lia.
  - rewrite Pos.iter_succ, Pos2Z.inj_xO, IH, Pos2Z.inj_succ, Z.pow_succ_r by lia.
    lia.
Qed.

Lemma shl_align_fst (m : positive) (e ez : Z) :
  ez <= e -> Z.pos (fst (shl_align m e ez)) = Z.pos m * 2 ^ (e - ez).
Proof.
  intros H. unfold shl_align.
  destruct (ez - e) as [|p|p] eqn:E; try lia; simpl fst.
  - replace (e - ez) with 0 by lia. simpl. lia.
  - rewrite iter_xO. f_equal. f_equal. lia.
Qed.

Lemma regular_intro (lo hi : Z) (m : positive) (e : Z) :
  2 ^ 52 <= Z.pos m < 2 ^ 53 -> lo <= e <= hi ->
  regular lo hi (S754_finite false m e) = true.
Proof.
  intros [H1 H2] [H3 H4]. unfold regular.
  apply Z.leb_le in H1, H3, H4. apply Z.ltb_lt in H2.
  rewrite H1, H2, H3, H4. reflexivity.
Qed.

(** The sum of two regular floats is regular and within one unit of its
    last place of the sum of the values. *)
Lemma add_regular (lo hi : Z) (x y : float) :
  -128 <= lo <= hi -> hi + 2 <= 0 ->
  regular lo hi x = true -> regular lo hi y = true ->
  regular lo (hi + 2) (add x y) = true /\
  Z.abs (val (add x y) - (val x + val y)) <= 2 ^ (hi + 1 + 128).
Proof.
  intros Hlo Hhi Hx Hy.
  assert (Hpos : 0 < 2 ^ (hi + 1 + 128)) by (apply Z.pow_pos_nonneg; lia).
  assert (Hweak : forall z, regular lo hi z = true ->
                            regular lo (hi + 2) z = true).
  { intros z Hz.
    destruct (regular_cases _ _ _ Hz) as [Ez|(m & e & Ez & Hm & He)]; subst z;
      [reflexivity|]. simpl.
    repeat (apply andb_true_intro; split);
      try apply Z.leb_le; try apply Z.ltb_lt; lia. }
  destruct (regular_cases _ _ _ Hx) as [Ex|(mx & ex & Ex & Hmx & Hex)];
    destruct (regular_cases _ _ _ Hy) as [Ey|(my & ey & Ey & Hmy & Hey)];
    subst x y.
  - split; [reflexivity|]. simpl. lia.
  - change (add (S754_zero false) (S754_finite false my ey))
      with (S754_finite false my ey).
    split; [apply Hweak, Hy|].
    replace (val (S754_finite false my ey)
             - (val (S754_zero false) + val (S754_finite false my ey)))
      with 0 by (simpl; lia). simpl Z.abs. lia.
  - change (add (S754_finite false mx ex) (S754_zero false))
      with (S754_finite false mx ex).
    split; [apply Hweak, Hx|].
    replace (val (S754_finite false mx ex)
             - (val (S754_finite false mx ex) + val (S754_zero false)))
      with 0 by (simpl; lia). simpl Z.abs. lia.
  - unfold add, SFadd. cbn [cond_Zopp].
    set (ez := Z.min ex ey).
    assert (Hsx : Z.pos (fst (shl_align mx ex ez)) = Z.pos mx * 2 ^ (ex - ez))
      by (apply shl_align_fst; unfold ez; lia).
    assert (Hsy : Z.pos (fst (shl_align my ey ez)) = Z.pos my * 2 ^ (ey - ez))
      by (apply shl_align_fst; unfold ez; lia).
    change (Z.pos (fst (shl_align mx ex ez)) + Z.pos (fst (shl_align my ey ez)))
      with (Z.pos (fst (shl_align mx ex ez) + fst (shl_align my ey ez))).
    set (s := (fst (shl_align mx ex ez) + fst (shl_align my ey ez))%positive).
    assert (Hs : Z.pos s = Z.pos mx * 2 ^ (ex - ez) + Z.pos my * 2 ^ (ey - ez))
      by (unfold s; rewrite Pos2Z.inj_add, Hsx, Hsy; reflexivity).
    (* size of the sum *)
    set (eM := Z.max ex ey).
    assert (Hez : ez <= ex /\ ez <= ey /\ (ez = ex \/ ez = ey)) by (unfold ez; lia).
    assert (HeM : ex <= eM /\ ey <= eM /\ (eM = ex \/ eM = ey))
      by (unfold eM; lia).
    clearbody ez eM.
    assert (Hpx : 0 < 2 ^ (ex - ez)) by (apply Z.pow_pos_nonneg; lia).
    assert (Hpy : 0 < 2 ^ (ey - ez)) by (apply Z.pow_pos_nonneg; lia).
    assert (HpM : 0 < 2 ^ (eM - ez)) by (apply Z.pow_pos_nonneg; lia).
    assert (Hx_le : 2 ^ (ex - ez) <= 2 ^ (eM - ez))
      by (apply Z.pow_le_mono_r; lia).
    assert (Hy_le : 2 ^ (ey - ez) <= 2 ^ (eM - ez))
      by (apply Z.pow_le_mono_r; lia).
    assert (Hone : 2 ^ (ex - ez) = 2 ^ (eM - ez) \/ 2 ^ (ey - ez) = 2 ^ (eM - ez))
      by (destruct HeM as (_ & _ & [E|E]); rewrite E; auto).
    assert (Slo : 2 ^ (52 + (eM - ez)) <= Z.pos s).
    { rewrite Z.pow_add_r by (clear - Hez HeM; lia). rewrite Hs.
      clear - Hmx Hmy Hpx Hpy Hone.
      destruct Hone as [E|E]; rewrite <- E; nia. }
    assert (Shi : Z.pos s < 2 ^ (54 + (eM - ez))).
    { rewrite Z.pow_add_r by (clear - Hez HeM; lia). rewrite Hs.
      change (2 ^ 54) with (2 ^ 53 + 2 ^ 53).
      clear - Hmx Hmy Hpx Hpy HpM Hx_le Hy_le.
      assert (Z.pos mx * 2 ^ (ex - ez) < 2 ^ 53 * 2 ^ (eM - ez)) by nia.
      assert (Z.pos my * 2 ^ (ey - ez) < 2 ^ 53 * 2 ^ (eM - ez)) by nia.
      lia. }
    destruct (digits2_pos_bounds s) as [Dlo Dhi].
    set (d := Z.pos (digits2_pos s)) in *.
    assert (Hd1 : 52 + (eM - ez) < d)
      by (apply (Z.pow_lt_mono_r_iff 2); clear - Slo Dhi Dlo Hez HeM; lia).
    assert (Hd2 : d - 1 < 54 + (eM - ez))
      by (apply (Z.pow_lt_mono_r_iff 2); clear - Shi Dhi Dlo Hez HeM; lia).
    (* binary_normalize *)
    unfold binary_normalize, binary_round.
    assert (Hf : fexp prec emax (d + ez) = d + ez - 53)
      by (apply fexp_normal; clear - Hd1 Hez HeM Hex Hey Hlo; lia).
    fold d. rewrite Hf.
    assert (Hal : shl_align s ez (d + ez - 53) = (s, ez)).
    { unfold shl_align.
      destruct (d + ez - 53 - ez) eqn:E; try reflexivity.
      clear - E Hd1 Hez HeM. lia. }
    rewrite Hal.
    destruct (round_core s ez) as (m & e & Er & Hm & He & Herr);
      fold d; [clear - Hd1 Hd2 Hez HeM Hex Hey Hlo Hhi; lia ..|].
    fold d in He, Herr.
    rewrite Er.
    assert (Hebounds : lo <= e <= hi + 2) by (clear - He Hd1 Hd2 Hez HeM Hex Hey; lia).
    split; [apply regular_intro; assumption|].
    cbn [val].
    assert (Hz : 0 < 2 ^ (ez + 128)) by (apply Z.pow_pos_nonneg; clear - Hez Hex Hey Hlo; lia).
    assert (E1 : 2 ^ (e + 128) = 2 ^ (e - ez) * 2 ^ (ez + 128))
      by (rewrite <- Z.pow_add_r by (clear - He Hd1 Hez HeM Hex Hey Hlo; lia); f_equal; clear; lia).
    assert (E2 : 2 ^ (ex + 128) = 2 ^ (ex - ez) * 2 ^ (ez + 128))
      by (rewrite <- Z.pow_add_r by (clear - Hez Hex Hey Hlo; lia); f_equal; clear; lia).
    assert (E3 : 2 ^ (ey + 128) = 2 ^ (ey - ez) * 2 ^ (ez + 128))
      by (rewrite <- Z.pow_add_r by (clear - Hez Hex Hey Hlo; lia); f_equal; clear; lia).
    rewrite E1, E2, E3.
    replace (Z.pos m * (2 ^ (e - ez) * 2 ^ (ez + 128))
             - (Z.pos mx * (2 ^ (ex - ez) * 2 ^ (ez + 128))
                + Z.pos my * (2 ^ (ey - ez) * 2 ^ (ez + 128))))
      with ((Z.pos m * 2 ^ (e - ez) - Z.pos s) * 2 ^ (ez + 128))
      by (rewrite Hs; ring).
    rewrite Z.abs_mul, (Z.abs_eq (2 ^ (ez + 128))) by (clear - Hz; lia).
    assert (Hb : 2 ^ (d - 53) * 2 ^ (ez + 128) <= 2 ^ (hi + 1 + 128)).
    { rewrite <- Z.pow_add_r by (clear - Hd1 Hez HeM Hex Hey Hlo; lia).
      apply Z.pow_le_mono_r; clear - Hd2 Hez HeM Hex Hey Hlo; lia. }
    eapply Z.le_trans; [|exact Hb].
    apply Z.mul_le_mono_nonneg_r; [clear - Hz; lia|exact Herr].
Qed.

(** The three products, for every value of an 8-bit channel. *)
Lemma products_table : forallb products_close channel_values = true.
Proof. vm_compute. reflexivity. Qed.

Lemma products_close_channel (n : Z) :
  0 <= n <= 255 -> products_close n = true.
Proof.
  intros H. pose proof products_table as T. rewrite forallb_forall in T.
  apply T. unfold channel_values. apply in_map_iff. exists (Z.to_nat n).
  split; [lia|]. apply in_seq. lia.
Qed.

Lemma regular_weaken (lo hi lo' hi' : Z) (x : float) :
  lo' <= lo -> hi <= hi' -> regular lo hi x = true -> regular lo' hi' x = true.
Proof.
  intros Hl Hh Hx.
  destruct (regular_cases _ _ _ Hx) as [E|(m & e & E & Hm & He)]; subst x;
    [reflexivity|].
  apply regular_intro; [exact Hm|lia].
Qed.

(** The binary64 luminance of an 8-bit colour is regular and within
    2^-41 of the exact luminance. *)
Lemma luminance_value_close (c : color) :
  rgb8 c = true ->
  regular (-128) 0 (luminance_value c) = true /\
  Z.abs (1000 * val (luminance_value c) - milli_luminance c * 2 ^ 128)
  <= 1000 * 2 ^ 87.
Proof.
  unfold rgb8. intros H.
  repeat (apply andb_prop in H as [H ?]).
  repeat match goal with E : (_ <=? _) = true |- _ => apply Z.leb_le in E end.
  pose proof (products_close_channel (red c) ltac:(lia)) as Hr.
  pose proof (products_close_channel (green c) ltac:(lia)) as Hg.
  pose proof (products_close_channel (blue c) ltac:(lia)) as Hb.
  unfold products_close, product_close in Hr, Hg, Hb.
  clear - Hr Hg Hb.
  apply andb_prop in Hr as [Hr Hr3]. apply andb_prop in Hr as [Hr1 Hr2].
  apply andb_prop in Hg as [Hg Hg3]. apply andb_prop in Hg as [Hg1 Hg2].
  apply andb_prop in Hb as [Hb Hb3]. apply andb_prop in Hb as [Hb1 Hb2].
  clear Hr2 Hr3 Hg1 Hg3 Hb1 Hb2.
  apply andb_prop in Hr1 as [Rr Er]. apply andb_prop in Hg2 as [Rg Eg].
  apply andb_prop in Hb3 as [Rb Eb].
  apply Z.leb_le in Er, Eg, Eb.
  unfold luminance_value, milli_luminance.
  set (p1 := mul lit_0_299 (of_Z (red c))) in *.
  set (p2 := mul lit_0_587 (of_Z (green c))) in *.
  set (p3 := mul lit_0_114 (of_Z (blue c))) in *.
  destruct (add_regular (-60) (-45) p1 p2 ltac:(lia) ltac:(lia) Rr Rg)
    as [R12 E12].
  pose proof (regular_weaken (-60) (-45) (-60) (-43) p3 ltac:(lia) ltac:(lia) Rb)
    as Rb'.
  replace (-45 + 2) with (-43) in R12 by lia.
  destruct (add_regular (-60) (-43) (add p1 p2) p3 ltac:(lia) ltac:(lia) R12 Rb')
    as [R123 E123].
  split.
  - apply (regular_weaken (-60) (-43 + 2)); [lia|lia|exact R123].
  - replace (-45 + 1 + 128) with 84 in E12 by lia.
    replace (-43 + 1 + 128) with 86 in E123 by lia.
    clear - Er Eg Eb E12 E123.
    set (v := val (add (add p1 p2) p3)) in *.
    set (v12 := val (add p1 p2)) in *.
    set (v1 := val p1) in *. set (v2 := val p2) in *. set (v3 := val p3) in *.
    clearbody v v12 v1 v2 v3.
    change (2 ^ 84) with 19342813113834066795298816 in *.
    change (2 ^ 86) with 77371252455336267181195264 in *.
    change (2 ^ 87) with 154742504910672534362390528.
    change (2 ^ 128) with 340282366920938463463374607431768211456 in *.
    lia.
Qed.

(** On 8-bit colours the binary64 luminance orders strictly as the exact
    luminance does. *)
Lemma luminance_value_strict (a b : color) :
  rgb8 a = true -> rgb8 b = true ->
  milli_luminance a < milli_luminance b ->
  ltb (luminance_value a) (luminance_value b) = true.
Proof.
  intros Ha Hb Hlt.
  destruct (luminance_value_close a Ha) as [Ra Ea].
  destruct (luminance_value_close b Hb) as [Rb Eb].
  apply (ltb_val _ _ Ra Rb).
  clear - Ea Eb Hlt.
  set (va := val (luminance_value a)) in *.
  set (vb := val (luminance_value b)) in *.
  set (la := milli_luminance a) in *. set (lb := milli_luminance b) in *.
  clearbody va vb la lb.
  change (2 ^ 87) with 154742504910672534362390528 in *.
  change (2 ^ 128) with 340282366920938463463374607431768211456 in *.
  lia.
Qed.

(** ** The stable sort of a decorated list *)

Section SortKeyed.
Context {A : Type}.
Implicit Types (p q : float * A) (l : list (float * A)).

Lemma insert_perm p l : Permutation (insert p l) (p :: l).
Proof.
  induction l as [|q l IH]; simpl; [reflexivity|].
  destruct (ltb (fst q) (fst p)); [|reflexivity].
  rewrite IH. apply perm_swap.
Qed.

Lemma sort_keyed_perm l : Permutation (sort_keyed l) l.
Proof.
  induction l as [|p l IH]; simpl; [constructor|].
  rewrite insert_perm. constructor. exact IH.
Qed.

Lemma insert_HdRel q p l :
  HdRel not_after q l -> not_after q p -> HdRel not_after q (insert p l).
Proof.
  intros Hl Hp. destruct l as [|r l]; simpl.
  - constructor. exact Hp.
  - destruct (ltb (fst r) (fst p)); constructor.
    + inversion Hl; assumption.
    + exact Hp.
Qed.

Lemma insert_Sorted p l :
  Sorted not_after l -> Sorted not_after (insert p l).
Proof.
  induction l as [|q l IH]; simpl; intros Hs.
  - repeat constructor.
  - inversion Hs as [|? ? Hs' Hhd]; subst.
    destruct (ltb (fst q) (fst p)) eqn:E.
    + constructor; [apply IH, Hs'|].
      apply insert_HdRel; [exact Hhd|].
      apply ltb_asym, E.
    + constructor; [exact Hs|]. constructor. exact E.
Qed.

Lemma sort_keyed_Sorted l : Sorted not_after (sort_keyed l).
Proof.
  induction l as [|p l IH]; simpl; [constructor|].
  apply insert_Sorted, IH.
Qed.

(** A sorted list is a fixed point of the sort. *)
Lemma sort_keyed_fixed l : Sorted not_after l -> sort_keyed l = l.
Proof.
  induction l as [|p l IH]; simpl; intros Hs; [reflexivity|].
  inversion Hs as [|? ? Hs' Hhd]; subst.
  rewrite (IH Hs').
  destruct l as [|q l]; simpl; [reflexivity|].
  inversion Hhd as [|? ? Hpq]; subst.
  unfold not_after in Hpq. rewrite Hpq. reflexivity.
Qed.

(** Stability: the elements of one key class keep their order. *)
Lemma insert_key_class (k : float) p l :
  filter (fun r => eqb (fst r) k) (insert p l)
  = filter (fun r => eqb (fst r) k) (p :: l).
Proof.
  induction l as [|q l IH]; [reflexivity|].
  simpl insert. destruct (ltb (fst q) (fst p)) eqn:E; [|reflexivity].
  change (filter (fun r => eqb (fst r) k) (q :: insert p l))
    with (if eqb (fst q) k
          then q :: filter (fun r => eqb (fst r) k) (insert p l)
          else filter (fun r => eqb (fst r) k) (insert p l)).
  rewrite IH. simpl.
  destruct (eqb (fst p) k) eqn:Ep; [|reflexivity].
  rewrite (eqb_below _ _ _ Ep E). reflexivity.
Qed.

Lemma sort_keyed_key_class (k : float) l :
  filter (fun r => eqb (fst r) k) (sort_keyed l)
  = filter (fun r => eqb (fst r) k) l.
Proof.
  induction l as [|p l IH]; [reflexivity|].
  simpl sort_keyed. rewrite insert_key_class. simpl. rewrite IH. reflexivity.
Qed.

(** With keys that are not NaN the sorted list is non-decreasing
    throughout. *)
Lemma Sorted_ascending l :
  Forall (fun p => nonneg (fst p) = true) l ->
  Sorted not_after l -> ascending (map fst l).
Proof.
  intros Hnn Hs. unfold ascending.
  apply Sorted_StronglySorted.
  - intros x y z. apply leb_trans.
  - induction Hs as [|p l Hs IH Hhd]; simpl; constructor.
    + apply IH. inversion Hnn; assumption.
    + inversion Hnn as [|? ? Hp Hl]; subst.
      destruct Hhd as [|q l Hpq]; simpl; constructor.
      inversion Hl; subst.
      apply leb_of_not_ltb; assumption.
Qed.

(** The first element of a sorted list has a least key. *)
Lemma Sorted_head_least p l :
  Forall (fun r => nonneg (fst r) = true) (p :: l) ->
  Sorted not_after (p :: l) ->
  forall q, In q (p :: l) -> leb (fst p) (fst q) = true.
Proof.
  intros Hnn Hs q Hq.
  pose proof (Sorted_ascending _ Hnn Hs) as Ha.
  unfold ascending in Ha. simpl in Ha.
  apply StronglySorted_inv in Ha as [_ Ha].
  destruct Hq as [Hq|Hq].
  - subst q. inversion Hnn; subst.
    apply leb_of_not_ltb; try assumption.
    destruct (ltb (fst p) (fst p)) eqn:E; [|reflexivity].
    rewrite (ltb_asym _ _ E) in E. discriminate.
  - rewrite Forall_forall in Ha. apply Ha, in_map, Hq.
Qed.

(** The stable sort is determined by its specification: a sorted list
    whose key classes are those of another sorted list, in the same
    order, is that list.  Whatever algorithm [sorted] runs, on keys that
    are not NaN it returns [sort_keyed]. *)
Lemma stable_sort_unique l1 : forall l2,
  Forall (fun r => nonneg (fst r) = true) l1 ->
  Forall (fun r => nonneg (fst r) = true) l2 ->
  Sorted not_after l1 -> Sorted not_after l2 ->
  (forall k, filter (fun r => eqb (fst r) k) l1
             = filter (fun r => eqb (fst r) k) l2) ->
  l1 = l2.
Proof.
  induction l1 as [|p1 t1 IH]; intros [|p2 t2] Hn1 Hn2 Hs1 Hs2 Hc.
  - reflexivity.
  - specialize (Hc (fst p2)). simpl in Hc.
    inversion Hn2; subst. rewrite eqb_refl in Hc by assumption.
    discriminate.
  - specialize (Hc (fst p1)). simpl in Hc.
    inversion Hn1; subst. rewrite eqb_refl in Hc by assumption.
    discriminate.
  - assert (Hin : forall (a b : list (float * A)) q,
               Forall (fun r => nonneg (fst r) = true) a ->
               (forall k, filter (fun r => eqb (fst r) k) a
                          = filter (fun r => eqb (fst r) k) b) ->
               In q a -> In q b).
    { intros a b q Ha Hab Hq.
      assert (Hqa : In q (filter (fun r => eqb (fst r) (fst q)) a)).
      { apply filter_In. split; [exact Hq|].
        rewrite Forall_forall in Ha. apply eqb_refl, Ha, Hq. }
      rewrite Hab in Hqa. apply filter_In in Hqa. apply Hqa. }
    assert (H12 : leb (fst p1) (fst p2) = true).
    { apply (Sorted_head_least p1 t1 Hn1 Hs1).
      apply (Hin (p2 :: t2) (p1 :: t1)); [exact Hn2| |left; reflexivity].
      intros k. symmetry. apply Hc. }
    assert (H21 : leb (fst p2) (fst p1) = true).
    { apply (Sorted_head_least p2 t2 Hn2 Hs2).
      apply (Hin (p1 :: t1) (p2 :: t2)); [exact Hn1|exact Hc|].
      left; reflexivity. }
    destruct (eqb_of_leb _ _ H12 H21) as [_ E21].
    assert (Hp : p1 = p2).
    { pose proof (Hc (fst p1)) as Hk. simpl in Hk.
      inversion Hn1; subst. rewrite eqb_refl, E21 in Hk by assumption.
      inversion Hk. reflexivity. }
    subst p2. f_equal.
    apply IH.
    + inversion Hn1; assumption.
    + inversion Hn2; assumption.
    + inversion Hs1; assumption.
    + inversion Hs2; assumption.
    + intros k. specialize (Hc k). simpl in Hc.
      destruct (eqb (fst p1) k); [inversion Hc; reflexivity|exact Hc].
Qed.

End SortKeyed.

(** ** The palette sorter *)

Lemma bucket_of_red (c : color) :
  bucket_of c = Red -> red c >= green c /\ red c >= blue c.
Proof.
  unfold bucket_of.
  destruct (Z.eqb_spec (red c) (Z.max (Z.max (red c) (green c)) (blue c)));
    [lia|].
  destruct (Z.eqb_spec (green c) (Z.max (Z.max (red c) (green c)) (blue c)));
    [discriminate|].
  destruct (Z.eqb_spec (blue c) (Z.max (Z.max (red c) (green c)) (blue c)));
    discriminate.
Qed.

Lemma bucket_of_green (c : color) :
  bucket_of c = Green -> green c >= blue c /\ green c > red c.
Proof.
  unfold bucket_of.
  destruct (Z.eqb_spec (red c) (Z.max (Z.max (red c) (green c)) (blue c)));
    [discriminate|].
  destruct (Z.eqb_spec (green c) (Z.max (Z.max (red c) (green c)) (blue c)));
    [lia|].
  destruct (Z.eqb_spec (blue c) (Z.max (Z.max (red c) (green c)) (blue c)));
    discriminate.
Qed.

Lemma bucket_of_blue (c : color) :
  bucket_of c = Blue -> blue c > red c /\ blue c > green c.
Proof.
  unfold bucket_of.
  destruct (Z.eqb_spec (red c) (Z.max (Z.max (red c) (green c)) (blue c)));
    [discriminate|].
  destruct (Z.eqb_spec (green c) (Z.max (Z.max (red c) (green c)) (blue c)));
    [discriminate|].
  destruct (Z.eqb_spec (blue c) (Z.max (Z.max (red c) (green c)) (blue c)));
    [lia|discriminate].
Qed.

(** The maximum of three integers is one of them: [else] is dead. *)
Lemma bucket_of_not_rest (c : color) : bucket_of c <> Rest.
Proof.
  unfold bucket_of.
  destruct (Z.eqb_spec (red c) (Z.max (Z.max (red c) (green c)) (blue c)));
    [discriminate|].
  destruct (Z.eqb_spec (green c) (Z.max (Z.max (red c) (green c)) (blue c)));
    [discriminate|].
  destruct (Z.eqb_spec (blue c) (Z.max (Z.max (red c) (green c)) (blue c)));
    [discriminate|lia].
Qed.

Lemma in_bucket_iff (b : bucket) (c : color) :
  in_bucket b c = true <-> bucket_of c = b.
Proof.
  unfold in_bucket. destruct (bucket_of c), b; simpl; split;
    congruence.
Qed.

(** The loop computes the four filters of its input. *)
Lemma fold_append_color (l : list color) : forall b0,
  fold_left append_color l b0
  = Buckets (reds b0 ++ filter (in_bucket Red) l)
            (greens b0 ++ filter (in_bucket Green) l)
            (blues b0 ++ filter (in_bucket Blue) l)
            (rests b0 ++ filter (in_bucket Rest) l).
Proof.
  induction l as [|c l IH]; intros b0; simpl.
  - rewrite !app_nil_r. destruct b0; reflexivity.
  - rewrite IH. unfold append_color, in_bucket.
    destruct (bucket_of c); simpl; rewrite <- ?app_assoc; reflexivity.
Qed.

Lemma partition_colors_filters (l : list color) :
  partition_colors l
  = Buckets (filter (in_bucket Red) l) (filter (in_bucket Green) l)
            (filter (in_bucket Blue) l) (filter (in_bucket Rest) l).
Proof. unfold partition_colors. rewrite fold_append_color. reflexivity. Qed.

Lemma filter_rest_nil (l : list color) : filter (in_bucket Rest) l = [].
Proof.
  induction l as [|c l IH]; simpl; [reflexivity|].
  destruct (in_bucket Rest c) eqn:E; [|exact IH].
  apply in_bucket_iff in E. destruct (bucket_of_not_rest c E).
Qed.

Lemma filter_buckets_perm (l : list color) :
  Permutation
    (filter (in_bucket Red) l ++ filter (in_bucket Green) l
     ++ filter (in_bucket Blue) l) l.
Proof.
  induction l as [|c l IH]; simpl; [constructor|].
  assert (Hc : forall b, in_bucket b c = bucket_eqb (bucket_of c) b)
    by reflexivity.
  rewrite !Hc. clear Hc.
  pose proof (bucket_of_not_rest c) as Hr.
  destruct (bucket_of c); simpl.
  - constructor. exact IH.
  - symmetry. apply Permutation_cons_app. symmetry. exact IH.
  - symmetry.
    rewrite app_assoc. apply Permutation_cons_app.
    rewrite <- app_assoc. symmetry. exact IH.
  - congruence.
Qed.

(** Keys. *)
Lemma luminance_representable (c : color) :
  representable c = true -> luminance c = Ok (luminance_value c).
Proof.
  unfold representable, luminance, float_of_int. intros H.
  apply andb_prop in H as [H Hb]. apply andb_prop in H as [Hr Hg].
  rewrite Hr, Hg, Hb. reflexivity.
Qed.

Lemma mapM_luminance (l : list color) :
  forallb representable l = true ->
  mapM luminance l = Ok (map luminance_value l).
Proof.
  induction l as [|c l IH]; simpl; intros H; [reflexivity|].
  apply andb_prop in H as [Hc Hl].
  rewrite (luminance_representable c Hc), (IH Hl). reflexivity.
Qed.

Lemma combine_decorate (l : list color) :
  combine (map luminance_value l) l = decorate l.
Proof.
  induction l as [|c l IH]; simpl; [reflexivity|]. rewrite IH. reflexivity.
Qed.

Lemma forallb_filter (f g : color -> bool) (l : list color) :
  forallb f l = true -> forallb f (filter g l) = true.
Proof.
  rewrite !forallb_forall. intros H x Hx.
  apply filter_In in Hx. apply H, Hx.
Qed.

Lemma sorted_luminance (b : bucket) (l : list color) :
  forallb representable l = true ->
  sorted luminance (filter (in_bucket b) l) = Ok (sorted_bucket b l).
Proof.
  intros H. unfold sorted, sorted_bucket.
  rewrite (mapM_luminance _ (forallb_filter _ (in_bucket b) _ H)).
  simpl. rewrite combine_decorate. reflexivity.
Qed.

Lemma sort_colors_buckets (l : list color) :
  forallb representable l = true ->
  sort_colors l
  = Ok (sorted_bucket Red l ++ sorted_bucket Green l
        ++ sorted_bucket Blue l ++ []).
Proof.
  intros H. unfold sort_colors.
  rewrite partition_colors_filters. cbv beta zeta. simpl reds.
  simpl greens. simpl blues. simpl rests.
  rewrite !(sorted_luminance _ _ H). simpl bind.
  unfold sorted_bucket at 4. rewrite filter_rest_nil. reflexivity.
Qed.

(** Sorted segments. *)
Lemma decorate_keyed (l : list color) : Forall keyed_by_luminance (decorate l).
Proof.
  induction l as [|c l IH]; simpl; constructor; [reflexivity|exact IH].
Qed.

Lemma map_snd_decorate (l : list color) : map snd (decorate l) = l.
Proof.
  induction l as [|c l IH]; simpl; [reflexivity|]. rewrite IH. reflexivity.
Qed.

Lemma decorate_map_snd (d : list (float * color)) :
  Forall keyed_by_luminance d -> decorate (map snd d) = d.
Proof.
  induction 1 as [|[k c] d Hp _ IH]; simpl; [reflexivity|].
  unfold keyed_by_luminance in Hp. simpl in Hp. rewrite IH, <- Hp.
  reflexivity.
Qed.

Lemma sort_keyed_keyed (l : list color) :
  Forall keyed_by_luminance (sort_keyed (decorate l)).
Proof.
  eapply Permutation_Forall.
  - symmetry. apply sort_keyed_perm.
  - apply decorate_keyed.
Qed.

Lemma sorted_bucket_perm (b : bucket) (l : list color) :
  Permutation (sorted_bucket b l) (filter (in_bucket b) l).
Proof.
  unfold sorted_bucket.
  rewrite <- (map_snd_decorate (filter (in_bucket b) l)) at 2.
  apply Permutation_map, sort_keyed_perm.
Qed.

Lemma sorted_bucket_in (b : bucket) (l : list color) :
  Forall (fun c => bucket_of c = b) (sorted_bucket b l).
Proof.
  apply Forall_forall. intros c Hc.
  apply (Permutation_in _ (sorted_bucket_perm b l)) in Hc.
  apply filter_In in Hc. apply in_bucket_iff, Hc.
Qed.

Lemma sorted_bucket_rest (l : list color) : sorted_bucket Rest l = [].
Proof. unfold sorted_bucket. rewrite filter_rest_nil. reflexivity. Qed.

Lemma filter_sorted_bucket (b b' : bucket) (l : list color) :
  filter (in_bucket b) (sorted_bucket b' l)
  = if bucket_eqb b' b then sorted_bucket b' l else [].
Proof.
  pose proof (sorted_bucket_in b' l) as H.
  induction H as [|c s Hc _ IH]; simpl.
  - destruct (bucket_eqb b' b); reflexivity.
  - unfold in_bucket at 1. rewrite Hc, IH.
    destruct (bucket_eqb b' b); reflexivity.
Qed.

(** The segment of bucket [b] in the output is that bucket, sorted. *)
Lemma filter_output (b : bucket) (l : list color) :
  filter (in_bucket b)
    (sorted_bucket Red l ++ sorted_bucket Green l
     ++ sorted_bucket Blue l ++ [])
  = sorted_bucket b l.
Proof.
  rewrite !filter_app, !filter_sorted_bucket.
  destruct b; simpl; rewrite ?app_nil_r, ?sorted_bucket_rest; reflexivity.
Qed.

Lemma output_perm (l : list color) :
  Permutation
    (sorted_bucket Red l ++ sorted_bucket Green l
     ++ sorted_bucket Blue l ++ []) l.
Proof.
  rewrite app_nil_r.
  rewrite !sorted_bucket_perm. apply filter_buckets_perm.
Qed.

Lemma forallb_perm (f : color -> bool) (l l' : list color) :
  Permutation l l' -> forallb f l = true -> forallb f l' = true.
Proof.
  rewrite !forallb_forall. intros Hp H x Hx.
  apply H. apply (Permutation_in _ (Permutation_sym Hp)), Hx.
Qed.

(** Sorting a sorted segment again leaves it as it is. *)
Lemma sorted_bucket_fixed (b : bucket) (l : list color) :
  map snd (sort_keyed (decorate (sorted_bucket b l))) = sorted_bucket b l.
Proof.
  unfold sorted_bucket at 1.
  rewrite (decorate_map_snd _ (sort_keyed_keyed _)).
  rewrite (sort_keyed_fixed _ (sort_keyed_Sorted _)).
  reflexivity.
Qed.

(** Keys of proper colours are never NaN. *)
Lemma luminance_value_nonneg (c : color) :
  rgb c = true -> nonneg (luminance_value c) = true.
Proof.
  unfold rgb. intros H.
  apply andb_prop in H as [H Hb]. apply andb_prop in H as [H Hg].
  apply andb_prop in H as [_ Hr].
  apply Z.leb_le in Hr, Hg, Hb.
  unfold luminance_value.
  repeat apply add_nonneg; apply mul_nonneg; apply of_Z_nonneg; assumption.
Qed.

Lemma rgb_representable (l : list color) :
  forallb rgb l = true -> forallb representable l = true.
Proof.
  rewrite !forallb_forall. intros H c Hc. specialize (H c Hc).
  unfold rgb in H. do 3 (apply andb_prop in H as [H _]). exact H.
Qed.

(** C1. On every list of colours [sort_colors] returns a permutation of
    its input (same length, same colours), laid out as reds, greens,
    blues, rests in this order.  Each segment holds the colours that
    the R-then-G-then-B test against the maximum sends to its bucket, so
    R >= G and R >= B throughout the red segment, G >= B and G > R
    throughout the green one, B > R and B > G throughout the blue one, and
    the rests bucket is empty. *)
Theorem sort_colors_bucketed_permutation (l : list color) :
  forallb representable l = true ->
  exists rs gs bs : list color,
    sort_colors l = Ok (rs ++ gs ++ bs ++ rests (partition_colors l)) /\
    rests (partition_colors l) = [] /\
    Permutation l (rs ++ gs ++ bs) /\
    length (rs ++ gs ++ bs) = length l /\
    Permutation rs (filter (fun c => in_bucket Red c) l) /\
    Permutation gs (filter (fun c => in_bucket Green c) l) /\
    Permutation bs (filter (fun c => in_bucket Blue c) l) /\
    Forall (fun c => red c >= green c /\ red c >= blue c) rs /\
    Forall (fun c => green c >= blue c /\ green c > red c) gs /\
    Forall (fun c => blue c > red c /\ blue c > green c) bs.
Proof.
  intros H.
  exists (sorted_bucket Red l), (sorted_bucket Green l), (sorted_bucket Blue l).
  assert (Hrest : rests (partition_colors l) = [])
    by (rewrite partition_colors_filters; apply filter_rest_nil).
  assert (Hperm : Permutation l (sorted_bucket Red l ++ sorted_bucket Green l
                                 ++ sorted_bucket Blue l)).
  { symmetry. rewrite <- (app_nil_r (sorted_bucket Blue l)).
    apply output_perm. }
  rewrite Hrest.
  repeat split.
  - apply sort_colors_buckets, H.
  - exact Hperm.
  - symmetry. apply Permutation_length, Hperm.
  - apply sorted_bucket_perm.
  - apply sorted_bucket_perm.
  - apply sorted_bucket_perm.
  - eapply Forall_impl; [|apply sorted_bucket_in].
    intros c Hc. apply bucket_of_red, Hc.
  - eapply Forall_impl; [|apply sorted_bucket_in].
    intros c Hc. apply bucket_of_green, Hc.
  - eapply Forall_impl; [|apply sorted_bucket_in].
    intros c Hc. apply bucket_of_blue, Hc.
Qed.

Lemma sort_colors_bucketed_permutation_witness :
  forallb representable sample_palette = true /\
  exists rs gs bs : list color,
    sort_colors sample_palette
    = Ok (rs ++ gs ++ bs ++ rests (partition_colors sample_palette)) /\
    rests (partition_colors sample_palette) = [] /\
    Permutation sample_palette (rs ++ gs ++ bs) /\
    length (rs ++ gs ++ bs) = length sample_palette /\
    Permutation rs (filter (fun c => in_bucket Red c) sample_palette) /\
    Permutation gs (filter (fun c => in_bucket Green c) sample_palette) /\
    Permutation bs (filter (fun c => in_bucket Blue c) sample_palette) /\
    Forall (fun c => red c >= green c /\ red c >= blue c) rs /\
    Forall (fun c => green c >= blue c /\ green c > red c) gs /\
    Forall (fun c => blue c > red c /\ blue c > green c) bs.
Proof.
  split.
  - vm_compute. reflexivity.
  - apply (sort_colors_bucketed_permutation sample_palette).
    vm_compute. reflexivity.
Defined.

(** Key classes at the level of colours. *)
Lemma filter_map_snd (f : color -> bool) (d : list (float * color)) :
  filter f (map snd d) = map snd (filter (fun p => f (snd p)) d).
Proof.
  induction d as [|p d IH]; simpl; [reflexivity|].
  destruct (f (snd p)); simpl; rewrite IH; reflexivity.
Qed.

Lemma filter_andb (f g : color -> bool) (l : list color) :
  filter (fun c => f c && g c) l = filter g (filter f l).
Proof.
  induction l as [|c l IH]; simpl; [reflexivity|].
  destruct (f c); simpl; rewrite IH; reflexivity.
Qed.

Lemma has_luminance_value (k : float) (c : color) :
  representable c = true -> has_luminance k c = eqb (luminance_value c) k.
Proof.
  intros H. unfold has_luminance. rewrite (luminance_representable c H).
  reflexivity.
Qed.

Lemma key_class_decorated (k : float) (l : list color) (d : list (float * color)) :
  forallb representable l = true ->
  Permutation d (decorate l) ->
  filter (fun p => has_luminance k (snd p)) d
  = filter (fun p => eqb (fst p) k) d.
Proof.
  intros Hl Hd. apply filter_ext_in. intros [k' c] Hp.
  apply (Permutation_in _ Hd) in Hp.
  unfold decorate in Hp. apply in_map_iff in Hp as [c' [E Hc']].
  inversion E; subst. simpl.
  apply has_luminance_value.
  rewrite forallb_forall in Hl. apply Hl, Hc'.
Qed.

Lemma sort_keyed_luminance_class (k : float) (l : list color) :
  forallb representable l = true ->
  filter (has_luminance k) (map snd (sort_keyed (decorate l)))
  = filter (has_luminance k) l.
Proof.
  intros H.
  rewrite filter_map_snd.
  rewrite (key_class_decorated k l _ H (sort_keyed_perm _)).
  rewrite sort_keyed_key_class.
  rewrite <- (key_class_decorated k l _ H (Permutation_refl _)).
  rewrite <- filter_map_snd, map_snd_decorate. reflexivity.
Qed.

Lemma map_luminance_value_snd (d : list (float * color)) :
  Forall keyed_by_luminance d ->
  map luminance_value (map snd d) = map fst d.
Proof.
  induction 1 as [|p d Hp _ IH]; simpl; [reflexivity|].
  rewrite IH, <- Hp. reflexivity.
Qed.

Lemma sorted_bucket_ascending (b : bucket) (l : list color) :
  forallb rgb l = true ->
  ascending (map luminance_value (sorted_bucket b l)).
Proof.
  intros H. unfold sorted_bucket.
  rewrite (map_luminance_value_snd _ (sort_keyed_keyed _)).
  apply Sorted_ascending; [|apply sort_keyed_Sorted].
  apply Forall_forall. intros [k c] Hp.
  pose proof (sort_keyed_keyed (filter (in_bucket b) l)) as Hk.
  rewrite Forall_forall in Hk. specialize (Hk _ Hp). simpl in *.
  unfold keyed_by_luminance in Hk. simpl in Hk. subst k.
  apply luminance_value_nonneg.
  apply (Permutation_in _ (sort_keyed_perm _)) in Hp.
  unfold decorate in Hp. apply in_map_iff in Hp as [c' [E Hc']].
  inversion E; subst.
  apply filter_In in Hc' as [Hc' _].
  rewrite forallb_forall in H. apply H, Hc'.
Qed.

(** The key of the source is the binary64 evaluation of the weighted
    sum. *)
Lemma luminance_value_bt601 (c : color) :
  luminance_value c = bt601_binary64 c.
Proof.
  unfold luminance_value, bt601_binary64.
  destruct literals_correctly_rounded as (E1 & E2 & E3).
  rewrite E1, E2, E3. reflexivity.
Qed.

Lemma map_luminance_value_bt601 (l : list color) :
  map luminance_value l = map bt601_binary64 l.
Proof. apply map_ext, luminance_value_bt601. Qed.

Lemma has_luminance_bt601 (k : float) (c : color) :
  representable c = true -> has_luminance k c = has_binary64_luminance k c.
Proof.
  intros H. rewrite (has_luminance_value k c H).
  unfold has_binary64_luminance. rewrite luminance_value_bt601. reflexivity.
Qed.

Lemma filter_binary64_luminance (k : float) (l : list color) :
  forallb representable l = true ->
  filter (has_binary64_luminance k) l = filter (has_luminance k) l.
Proof.
  intros H. apply filter_ext_in. intros c Hc. symmetry.
  apply has_luminance_bt601. rewrite forallb_forall in H. apply H, Hc.
Qed.

(** The exact luminances compare as their thousandfolds. *)
Lemma bt601_exact_le (a b : color) :
  milli_luminance a <= milli_luminance b ->
  (bt601_exact a <= bt601_exact b)%Q.
Proof.
  unfold milli_luminance, bt601_exact, Qle. cbn. lia.
Qed.

Lemma bt601_exact_milli (c : color) :
  (bt601_exact c == milli_luminance c # 1000)%Q.
Proof.
  unfold milli_luminance, bt601_exact, Qeq. cbn. lia.
Qed.

(** On 8-bit colours, keys that never decrease belong to exact
    luminances that never decrease. *)
Lemma ascending_exact (l : list color) :
  forallb rgb8 l = true -> ascending (map luminance_value l) ->
  StronglySorted (fun x y => (bt601_exact x <= bt601_exact y)%Q) l.
Proof.
  unfold ascending.
  induction l as [|a l IH]; simpl; intros H8 Hs; [constructor|].
  apply andb_prop in H8 as [Ha Hl].
  inversion Hs as [|? ? Hs' Hall]; subst.
  constructor; [apply IH; assumption|].
  rewrite Forall_map in Hall. rewrite forallb_forall in Hl.
  rewrite Forall_forall in *. intros y Hy.
  apply bt601_exact_le.
  destruct (Z.le_gt_cases (milli_luminance a) (milli_luminance y))
    as [Hle|Hgt]; [exact Hle|].
  exfalso.
  pose proof (luminance_value_strict y a (Hl y Hy) Ha Hgt) as Hlt.
  rewrite (leb_not_ltb _ _ (Hall y Hy)) in Hlt. discriminate.
Qed.

(** The arrangement of a palette that [sort_colors] returns. *)
Lemma sort_colors_layout (l out : list color) :
  forallb rgb l = true -> sort_colors l = Ok out -> bucketed_by_luminance out.
Proof.
  intros H Hout. pose proof (rgb_representable l H) as Hr.
  rewrite (sort_colors_buckets l Hr) in Hout.
  inversion Hout; subst out; clear Hout.
  split.
  - rewrite !filter_output, app_nil_r. reflexivity.
  - intros b. rewrite filter_output, <- map_luminance_value_bt601.
    apply sorted_bucket_ascending, H.
Qed.

(** C2, as the code has it. Within each bucket of the output of
    [sort_colors] the colours stand in non-decreasing order of the key
    that [luminance] computes, which is 0.299 R + 0.587 G + 0.114 B
    evaluated in binary64, every product and sum rounded; the sort is
    stable for this key: the colours of one bucket that have equal
    binary64 luminance stand in the output in the order they had in the
    input.  On 8-bit channels the exact luminances 0.299 R + 0.587 G +
    0.114 B never decrease either. *)
Theorem sort_colors_luminance_order (l : list color) :
  forallb rgb l = true ->
  exists out : list color,
    sort_colors l = Ok out /\
    (forall b : bucket,
        mapM luminance (filter (in_bucket b) out)
        = Ok (map bt601_binary64 (filter (in_bucket b) out))) /\
    bucketed_by_luminance out /\
    (forall (b : bucket) (k : float),
        filter (fun c => in_bucket b c && has_binary64_luminance k c) out
        = filter (fun c => in_bucket b c && has_binary64_luminance k c) l) /\
    (forallb rgb8 l = true -> ascending_exact_luminance out).
Proof.
  intros H. pose proof (rgb_representable l H) as Hr.
  assert (Hseg : forall b, forallb representable (sorted_bucket b l) = true).
  { intros b. apply (forallb_perm _ (filter (in_bucket b) l)).
    - symmetry. apply sorted_bucket_perm.
    - apply forallb_filter, Hr. }
  eexists. split; [apply sort_colors_buckets, Hr|].
  split; [|split; [|split]].
  - intros b. rewrite filter_output, <- map_luminance_value_bt601.
    apply mapM_luminance, Hseg.
  - apply (sort_colors_layout l _ H), sort_colors_buckets, Hr.
  - intros b k. rewrite !filter_andb, filter_output.
    rewrite (filter_binary64_luminance k _ (Hseg b)).
    rewrite (filter_binary64_luminance k _ (forallb_filter _ _ _ Hr)).
    apply sort_keyed_luminance_class, forallb_filter, Hr.
  - intros H8 b. rewrite filter_output.
    apply ascending_exact; [|apply sorted_bucket_ascending, H].
    apply (forallb_perm _ (filter (in_bucket b) l)).
    + symmetry. apply sorted_bucket_perm.
    + apply forallb_filter, H8.
Qed.

Lemma sort_colors_luminance_order_witness :
  forallb rgb sample_palette = true /\
  forallb rgb8 sample_palette = true /\
  exists out : list color,
    sort_colors sample_palette = Ok out /\
    (forall b : bucket,
        mapM luminance (filter (in_bucket b) out)
        = Ok (map bt601_binary64 (filter (in_bucket b) out))) /\
    bucketed_by_luminance out /\
    (forall (b : bucket) (k : float),
        filter (fun c => in_bucket b c && has_binary64_luminance k c) out
        = filter (fun c => in_bucket b c && has_binary64_luminance k c)
            sample_palette) /\
    ascending_exact_luminance out.
Proof.
  assert (H : forallb rgb sample_palette = true) by (vm_compute; reflexivity).
  assert (H8 : forallb rgb8 sample_palette = true)
    by (vm_compute; reflexivity).
  split; [exact H|]. split; [exact H8|].
  destruct (sort_colors_luminance_order sample_palette H)
    as (out & Hout & Hkeys & Hlay & Hstable & Hexact).
  exists out. repeat (split; [assumption|]). exact (Hexact H8).
Defined.

(** C2, as stated, fails for the exact luminance: (100, 50, 40) and
    (111, 51, 6) are both red and both have luminance 63.81, yet
    [sort_colors] returns them in the other order, their binary64 keys
    being one unit of the last place apart. *)
Lemma sort_colors_exact_tie_swapped :
  forallb rgb8 [RGB 100 50 40; RGB 111 51 6] = true /\
  bucket_of (RGB 100 50 40) = Red /\ bucket_of (RGB 111 51 6) = Red /\
  (bt601_exact (RGB 100 50 40) == 6381 # 100)%Q /\
  (bt601_exact (RGB 111 51 6) == 6381 # 100)%Q /\
  sort_colors [RGB 100 50 40; RGB 111 51 6]
  = Ok [RGB 111 51 6; RGB 100 50 40] /\
  ~ stable_on_exact_luminance [RGB 100 50 40; RGB 111 51 6]
                              [RGB 111 51 6; RGB 100 50 40].
Proof.
  repeat (split; [vm_compute; reflexivity|]).
  intros H. specialize (H Red (6381 # 100)%Q).
  vm_compute in H. discriminate.
Qed.

Lemma sorted_bucket_output (b : bucket) (l : list color) :
  sorted_bucket b (sorted_bucket Red l ++ sorted_bucket Green l
                   ++ sorted_bucket Blue l ++ [])
  = sorted_bucket b l.
Proof.
  unfold sorted_bucket at 1. rewrite filter_output.
  apply sorted_bucket_fixed.
Qed.

(** Rounding separates luminances that are equal as real numbers:
    29.9 + 29.35 + 4.56 and 33.189 + 29.937 + 0.684 are both 63.81, and the
    second colour, whose float is one ulp smaller, sorts first. *)
Lemma luminance_rounding_splits_tie :
  299 * 100 + 587 * 50 + 114 * 40 = 299 * 111 + 587 * 51 + 114 * 6 /\
  luminance (RGB 100 50 40) = Ok (S754_finite false 8980459131953480 (-47)) /\
  luminance (RGB 111 51 6) = Ok (S754_finite false 8980459131953479 (-47)) /\
  sort_colors [RGB 100 50 40; RGB 111 51 6]
  = Ok [RGB 111 51 6; RGB 100 50 40].
Proof. vm_compute. repeat split; reflexivity. Qed.

(** A call that returns had colours that coerce. *)
Lemma luminance_ok_representable (c : color) (k : float) :
  luminance c = Ok k -> representable c = true.
Proof.
  unfold luminance, float_of_int, representable.
  destruct (Z.abs (red c) <? overflow_bound); simpl; [|discriminate].
  destruct (Z.abs (green c) <? overflow_bound); simpl; [|discriminate].
  destruct (Z.abs (blue c) <? overflow_bound); simpl; [|discriminate].
  reflexivity.
Qed.

Lemma sorted_ok_representable (l out : list color) :
  sorted luminance l = Ok out -> forallb representable l = true.
Proof.
  unfold sorted.
  destruct (mapM luminance l) as [ks|] eqn:E; simpl; [|discriminate].
  intros _. apply forallb_forall. intros c Hc. revert ks E.
  induction l as [|c' l IH]; simpl; intros ks E; [destruct Hc|].
  destruct (luminance c') as [k|] eqn:Ek; simpl in E; [|discriminate].
  destruct (mapM luminance l) as [ks'|]; simpl in E; [|discriminate].
  destruct Hc as [Hc|Hc].
  - subst. apply (luminance_ok_representable _ _ Ek).
  - apply (IH Hc ks' eq_refl).
Qed.

Lemma sort_colors_ok_representable (l out : list color) :
  sort_colors l = Ok out -> forallb representable l = true.
Proof.
  unfold sort_colors. rewrite partition_colors_filters. simpl.
  destruct (sorted luminance (filter (in_bucket Red) l)) as [rs|] eqn:Er;
    simpl; [|discriminate].
  destruct (sorted luminance (filter (in_bucket Green) l)) as [gs|] eqn:Eg;
    simpl; [|discriminate].
  destruct (sorted luminance (filter (in_bucket Blue) l)) as [bs|] eqn:Eb;
    simpl; [|discriminate].
  intros _.
  apply sorted_ok_representable in Er, Eg, Eb.
  rewrite forallb_forall in Er, Eg, Eb.
  apply forallb_forall. intros c Hc.
  pose proof (bucket_of_not_rest c) as Hrest.
  destruct (bucket_of c) eqn:Ec; [apply Er|apply Eg|apply Eb|congruence];
    apply filter_In; split; try exact Hc; apply in_bucket_iff, Ec.
Qed.

(** C7. [sort_colors] is idempotent: sorting its own output returns that
    output, element for element; a call that raises leaves nothing to
    sort again. *)
Theorem sort_colors_idempotent (l : list color) :
  forallb representable l = true ->
  (exists out : list color,
      sort_colors l = Ok out /\ sort_colors out = Ok out) /\
  (out <- sort_colors l ;; sort_colors out) = sort_colors l.
Proof.
  intros H.
  assert (Hout : sort_colors
                   (sorted_bucket Red l ++ sorted_bucket Green l
                    ++ sorted_bucket Blue l ++ [])
                 = Ok (sorted_bucket Red l ++ sorted_bucket Green l
                       ++ sorted_bucket Blue l ++ [])).
  { rewrite sort_colors_buckets.
    - rewrite !sorted_bucket_output. reflexivity.
    - apply (forallb_perm _ l); [|exact H].
      symmetry. apply output_perm. }
  split.
  - eexists. split; [apply sort_colors_buckets, H|exact Hout].
  - rewrite (sort_colors_buckets l H). exact Hout.
Qed.

Lemma sort_colors_idempotent_witness :
  forallb representable sample_palette = true /\
  (exists out : list color,
      sort_colors sample_palette = Ok out /\ sort_colors out = Ok out) /\
  (out <- sort_colors sample_palette ;; sort_colors out)
  = sort_colors sample_palette.
Proof.
  split.
  - vm_compute. reflexivity.
  - apply (sort_colors_idempotent sample_palette). vm_compute. reflexivity.
Defined.

(** Without any assumption on the colours: either call raises the same
    exception, or both return the same list. *)
Lemma sort_colors_twice (l : list color) :
  (out <- sort_colors l ;; sort_colors out) = sort_colors l.
Proof.
  destruct (sort_colors l) as [out|e] eqn:E; [|reflexivity].
  pose proof (sort_colors_ok_representable l out E) as H.
  rewrite (sort_colors_buckets l H) in E. inversion E; subst out.
  simpl bind. rewrite sort_colors_buckets.
  - rewrite !sorted_bucket_output. reflexivity.
  - apply (forallb_perm _ l); [|exact H].
    symmetry. apply output_perm.
Qed.

(** ** The cluster-count selector *)

Lemma select_clusters_num_min (U : Z) :
  0 <= U -> select_clusters_num U = Z.min (5 + U / 6) 24 /\ 0 <= U / 6.
Proof.
  intros HU. unfold select_clusters_num.
  assert (H : 0 <= U / 6) by (apply Z.div_pos; lia).
  rewrite Z.gtb_ltb.
  destruct (Z.ltb_spec (5 + U / 6) 2); [lia|].
  destruct (Z.ltb_spec 24 (5 + U / 6)); lia.
Qed.

(** C6. For every unique-colour count U >= 0 the cluster count lies in
    [5, 24] and is min(5 + U // 6, 24); the raw value 5 + U // 6 is never
    below 2, so the branch that assigns 5 is dead. *)
Theorem select_clusters_num_bounds (U : Z) :
  0 <= U ->
  5 <= select_clusters_num U <= 24 /\
  select_clusters_num U = Z.min (5 + U / 6) 24 /\
  (5 + U / 6 <? 2) = false.
Proof.
  intros HU. destruct (select_clusters_num_min U HU) as [Hmin Hdiv].
  split; [lia|]. split; [exact Hmin|].
  apply Z.ltb_ge. lia.
Qed.

Lemma select_clusters_num_bounds_witness :
  0 <= 120 /\
  5 <= select_clusters_num 120 <= 24 /\
  select_clusters_num 120 = Z.min (5 + 120 / 6) 24 /\
  (5 + 120 / 6 <? 2) = false.
Proof.
  split; [lia|]. apply (select_clusters_num_bounds 120). lia.
Defined.

(** Whatever the image, between 5 and 24 clusters are requested. *)
Lemma clusters_num_range (img : image) : 5 <= clusters_num img <= 24.
Proof.
  unfold clusters_num.
  destruct (select_clusters_num_min
              (Z.of_nat (length (np_unique_axis0 img)))) as [Hmin Hdiv]; lia.
Qed.

(** C3. The count that [extract_colors] feeds to the selector is the
    number of distinct rows of the image, not of distinct pixel colours:
    a row of twelve colours gets 5 clusters where clamp(5 + 12 // 6, 5, 24)
    is 7, and the same twelve pixels in a column get 7. *)
Theorem clusters_num_counts_rows :
  length (distinct_colors strip_image) = 12%nat /\
  select_clusters_num 12 = 7 /\
  clusters_num strip_image = 5 /\
  distinct_colors column_image = distinct_colors strip_image /\
  clusters_num column_image = 7.
Proof. vm_compute. repeat split; reflexivity. Qed.

(** ** The weight normalizer *)

Lemma length_np_histogram (a edges : list Z) :
  length (np_histogram a edges) = pred (length edges).
Proof.
  induction edges as [|lo [|hi rest] IH]; try reflexivity.
  change (np_histogram a (lo :: hi :: rest))
    with (count (fun x => (lo <=? x) &&
                   match rest with [] => x <=? hi | _ => x <? hi end) a
          :: np_histogram a (hi :: rest)).
  cbn [length]. rewrite IH. reflexivity.
Qed.

Lemma length_np_arange (n : nat) :
  length (np_arange 0 (Z.of_nat n + 1)) = S n.
Proof.
  unfold np_arange. rewrite length_map, length_seq. lia.
Qed.

(** The histogram has one weight per distinct label. *)
Lemma length_centerize_histogram (clt : KMeans) :
  length (centerize_histogram clt) = distinct_labels clt.
Proof.
  unfold centerize_histogram, distinct_labels.
  rewrite !length_map, length_np_histogram, length_np_arange. reflexivity.
Qed.

Lemma count_ext (f g : Z -> bool) (a : list Z) :
  (forall x, In x a -> f x = g x) -> count f a = count g a.
Proof.
  intros H. unfold count. rewrite (filter_ext_in f g a H). reflexivity.
Qed.

Lemma map_seq_succ {B : Type} (f : nat -> B) (n : nat) :
  map f (seq 1 n) = map (fun i => f (S i)) (seq 0 n).
Proof. rewrite <- seq_shift, map_map. reflexivity. Qed.

(** Over edges [s, s+1, ..., s+n+1] and values that do not exceed [s+n],
    each bin counts the occurrences of one value. *)
Lemma np_histogram_unit_bins (a : list Z) (n : nat) : forall s : Z,
  Forall (fun x => x <= s + Z.of_nat n) a ->
  np_histogram a (map (fun i => s + Z.of_nat i) (seq 0 (S (S n))))
  = map (fun i => count (Z.eqb (s + Z.of_nat i)) a) (seq 0 (S n)).
Proof.
  induction n as [|n IH]; intros s Ha; rewrite Forall_forall in Ha.
  - simpl. f_equal. apply count_ext. intros x Hx. specialize (Ha x Hx).
    destruct (Z.leb_spec (s + 0) x), (Z.leb_spec x (s + 1)),
      (Z.eqb_spec (s + 0) x); simpl; lia.
  - change (seq 0 (S (S (S n)))) with (0%nat :: 1%nat :: seq 2 (S n)).
    change (seq 0 (S (S n))) with (0%nat :: seq 1 (S n)).
    cbn [map].
    change (np_histogram a
              (s + Z.of_nat 0 :: s + Z.of_nat 1
               :: map (fun i => s + Z.of_nat i) (seq 2 (S n))))
      with (count (fun x => (s + Z.of_nat 0 <=? x) && (x <? s + Z.of_nat 1)) a
            :: np_histogram a
                 (map (fun i => s + Z.of_nat i) (1%nat :: seq 2 (S n)))).
    f_equal.
    + apply count_ext. intros x Hx.
      destruct (Z.leb_spec (s + Z.of_nat 0) x),
        (Z.ltb_spec x (s + Z.of_nat 1)),
        (Z.eqb_spec (s + Z.of_nat 0) x); simpl; lia.
    + change (1%nat :: seq 2 (S n)) with (seq 1 (S (S n))).
      rewrite !map_seq_succ.
      rewrite (map_ext (fun i => s + Z.of_nat (S i))
                       (fun i => (s + 1) + Z.of_nat i)) by (intros; lia).
      rewrite IH.
      * apply map_ext. intros i. apply count_ext. intros x _.
        replace (s + 1 + Z.of_nat i) with (s + Z.of_nat (S i)) by lia.
        reflexivity.
      * apply Forall_forall. intros x Hx. specialize (Ha x Hx). lia.
Qed.

(** When no cluster is empty the histogram is taken over the bins of the
    [k] cluster indices, and bin [i] counts the pixels labelled [i]. *)
Lemma np_histogram_all_clusters (clt : KMeans) (k : nat) :
  distinct_labels clt = S k ->
  Forall (fun l => 0 <= l < Z.of_nat (S k)) (labels_ clt) ->
  np_histogram (labels_ clt)
    (np_arange 0 (Z.of_nat (distinct_labels clt) + 1))
  = map (fun i => count (Z.eqb (Z.of_nat i)) (labels_ clt)) (seq 0 (S k)).
Proof.
  intros HL Hl. rewrite HL. unfold np_arange.
  replace (Z.to_nat (Z.of_nat (S k) + 1 - 0)) with (S (S k)) by lia.
  rewrite (np_histogram_unit_bins (labels_ clt) k 0).
  - reflexivity.
  - eapply Forall_impl; [|exact Hl]. simpl. intros x Hx. lia.
Qed.

(** The scenario of the specification: ten labels, three clusters. *)
Lemma centerize_histogram_scenario :
  centerize_histogram (Fitted [] [0; 0; 0; 1; 1; 2; 2; 2; 2; 2])
  = [lit_0_3; lit_0_2; lit_0_5] /\
  np_sum [lit_0_3; lit_0_2; lit_0_5] = lit_1_0 /\
  div (of_Z 3) (of_Z 10) = lit_0_3 /\
  div (of_Z 2) (of_Z 10) = lit_0_2 /\
  div (of_Z 5) (of_Z 10) = lit_0_5.
Proof. vm_compute. repeat split; reflexivity. Qed.

(** With an empty cluster in the middle the last bin, closed on the
    right, takes the labels of the next index. *)
Lemma centerize_histogram_gap :
  centerize_histogram (Fitted [] [0; 0; 2])
  = [div (of_Z 2) (of_Z 3); div (of_Z 1) (of_Z 3)].
Proof. vm_compute. reflexivity. Qed.

(** C5. On the fit of a solid image, five clusters of which one holds
    every pixel, [centerize_histogram] returns the single weight 1.0: the
    four empty clusters get no weight, where one weight per cluster index
    would be [1.0; 0.0; 0.0; 0.0; 0.0]. *)
Theorem centerize_histogram_solid :
  length (cluster_centers_ solid_clt) = 5%nat /\
  labels_ solid_clt = [0; 0; 0; 0; 0; 0] /\
  centerize_histogram solid_clt = [lit_1_0].
Proof. vm_compute. repeat split; reflexivity. Qed.

(** ** The pipeline *)

Lemma mapM_combine_snd (hist : list float) : forall cs : list center,
  mapM (fun color => int_center (snd color)) (combine hist cs)
  = mapM int_center (firstn (length hist) cs).
Proof.
  induction hist as [|h hist IH]; intros [|c cs]; simpl; try reflexivity.
  rewrite IH. reflexivity.
Qed.

Lemma In_firstn {A : Type} (n : nat) : forall (l : list A) (x : A),
  In x (firstn n l) -> In x l.
Proof.
  induction n as [|n IH]; intros [|y l] x H; simpl in *; try contradiction.
  destruct H as [H|H]; [left; exact H|right; apply IH, H].
Qed.

(** The [zip] keeps as many centres as the histogram has weights. *)
Lemma extract_colors_fitted (fit : clusterer) (img : image) (clt : KMeans) :
  fit (clusters_num img) (reshape img) = Ok clt ->
  extract_colors fit img
  = (cs <- mapM int_center
             (firstn (distinct_labels clt) (cluster_centers_ clt)) ;;
     sort_colors cs).
Proof.
  intros H. unfold extract_colors. rewrite H. simpl bind.
  rewrite mapM_combine_snd, length_centerize_histogram. reflexivity.
Qed.

Lemma mapM_length {A B : Type} (f : A -> result B) (l : list A) :
  forall l', mapM f l = Ok l' -> length l' = length l.
Proof.
  induction l as [|x l IH]; simpl; intros l' H.
  - inversion H. reflexivity.
  - destruct (f x); simpl in H; [|discriminate].
    destruct (mapM f l); simpl in H; [|discriminate].
    inversion H. simpl. rewrite (IH _ eq_refl). reflexivity.
Qed.

Lemma mapM_In {A B : Type} (f : A -> result B) (l : list A) :
  forall l' y, mapM f l = Ok l' -> In y l' ->
  exists x, In x l /\ f x = Ok y.
Proof.
  induction l as [|x l IH]; simpl; intros l' y H Hy.
  - inversion H; subst. destruct Hy.
  - destruct (f x) as [b|] eqn:E; simpl in H; [|discriminate].
    destruct (mapM f l) as [bs|]; simpl in H; [|discriminate].
    inversion H; subst. destruct Hy as [Hy|Hy].
    + subst. exists x. auto.
    + destruct (IH _ _ eq_refl Hy) as [x' [Hx' Hf]]. exists x'. auto.
Qed.

Lemma map_snd_combine {A : Type} (ks : list float) : forall l : list A,
  length ks = length l -> map snd (combine ks l) = l.
Proof.
  induction ks as [|k ks IH]; intros [|x l] H; simpl in *; try discriminate;
    try reflexivity.
  rewrite IH; [reflexivity|]. lia.
Qed.

(** Whatever the keys, [sorted] returns a permutation. *)
Lemma sorted_perm {A : Type} (key : A -> result float) (l out : list A) :
  sorted key l = Ok out -> Permutation out l.
Proof.
  unfold sorted. intros H.
  destruct (mapM key l) as [ks|] eqn:E; simpl in H; [|discriminate].
  inversion H; subst.
  rewrite <- (map_snd_combine ks l (mapM_length _ _ _ E)) at 2.
  apply Permutation_map, sort_keyed_perm.
Qed.

Lemma sort_colors_perm (l out : list color) :
  sort_colors l = Ok out -> Permutation l out.
Proof.
  unfold sort_colors. rewrite partition_colors_filters. simpl.
  destruct (sorted luminance (filter (in_bucket Red) l)) as [rs|] eqn:Er;
    simpl; [|discriminate].
  destruct (sorted luminance (filter (in_bucket Green) l)) as [gs|] eqn:Eg;
    simpl; [|discriminate].
  destruct (sorted luminance (filter (in_bucket Blue) l)) as [bs|] eqn:Eb;
    simpl; [|discriminate].
  destruct (sorted luminance (filter (in_bucket Rest) l)) as [xs|] eqn:Ex;
    simpl; [|discriminate].
  intros H. inversion H; subst.
  apply sorted_perm in Er, Eg, Eb, Ex.
  rewrite filter_rest_nil in Ex.
  apply Permutation_sym, Permutation_nil in Ex. subst xs.
  rewrite app_nil_r, Er, Eg, Eb. symmetry. apply filter_buckets_perm.
Qed.

(** Distinct cluster indices are at most as many as the clusters. *)
Lemma distinct_labels_le (k : Z) (X : list pixel) (clt : KMeans) :
  well_fitted k X clt = true ->
  (distinct_labels clt <= length (cluster_centers_ clt))%nat.
Proof.
  unfold well_fitted, distinct_labels, np_unique. intros H.
  apply andb_prop in H as [H Hl]. apply andb_prop in H as [Hk _].
  apply Z.eqb_eq in Hk. rewrite forallb_forall in Hl.
  rewrite <- (length_seq (length (cluster_centers_ clt)) 0).
  rewrite <- (length_map Z.of_nat).
  apply NoDup_incl_length; [apply NoDup_nodup|].
  intros x Hx. apply nodup_In in Hx. specialize (Hl x Hx).
  apply andb_prop in Hl as [H0 H1].
  apply Z.leb_le in H0. apply Z.ltb_lt in H1.
  apply in_map_iff. exists (Z.to_nat x). split; [lia|].
  apply in_seq. lia.
Qed.

(** Which rows are dropped does not depend on which clusters are empty:
    here the blue cluster holds half of the pixels and is lost. *)
Lemma extract_colors_drops_used_center :
  well_fitted (clusters_num two_tone_image) (reshape two_tone_image)
    two_tone_clt = true /\
  distinct_labels two_tone_clt = 2%nat /\
  extract_colors (answer two_tone_clt) two_tone_image
  = Ok [RGB 255 0 0; RGB 255 0 0].
Proof. vm_compute. repeat split; reflexivity. Qed.

(** C4. On a solid image of six pixels the selected cluster count is 5
    and the fit has five rows of centres, yet the palette that
    [extract_colors] returns has a single colour. *)
Theorem extract_colors_solid :
  clusters_num solid_image = 5 /\
  seed_fit (clusters_num solid_image) (reshape solid_image) = Ok solid_clt /\
  length (cluster_centers_ solid_clt) = 5%nat /\
  extract_colors seed_fit solid_image = Ok [RGB 200 100 50] /\
  extract_colors (answer solid_clt) solid_image = Ok [RGB 200 100 50].
Proof. vm_compute. repeat split; reflexivity. Qed.

(** ** Conversion of the centres *)

Lemma int_of_float_truncated (x : float) (n : Z) :
  int_of_float x = Ok n -> truncated x n.
Proof.
  destruct x as [s|s| |s m e]; simpl; intros H; try discriminate;
    inversion H; subst; clear H; split; try reflexivity.
  destruct e as [|p|p]; cbn [to_Q].
  - cbn [Qnum Qden inject_Z]. rewrite Z.quot_1_r.
    change (2 ^ 0) with 1. rewrite Z.mul_1_r. reflexivity.
  - cbn [Qnum Qden inject_Z]. rewrite Z.quot_1_r, Z.shiftl_mul_pow2 by lia.
    reflexivity.
  - cbn [Qnum Qden].
    assert (Hpow : 0 < 2 ^ Z.pos p) by (apply Z.pow_pos_nonneg; lia).
    rewrite Z2Pos.id by exact Hpow.
    change (Z.shiftl (Z.pos m) (Z.neg p)) with (Z.shiftr (Z.pos m) (Z.pos p)).
    rewrite Z.shiftr_div_pow2 by lia.
    destruct s; simpl cond_Zopp.
    + change (Z.neg m) with (- Z.pos m).
      rewrite Z.quot_opp_l by lia.
      rewrite Z.quot_div_nonneg by lia. reflexivity.
    + rewrite Z.quot_div_nonneg by lia. reflexivity.
Qed.

Lemma int_center_truncated (c : center) (col : color) :
  int_center c = Ok col ->
  truncated (c0 c) (red col) /\ truncated (c1 c) (green col) /\
  truncated (c2 c) (blue col).
Proof.
  unfold int_center. intros H.
  destruct (int_of_float (c0 c)) as [r|] eqn:Er; simpl in H; [|discriminate].
  destruct (int_of_float (c1 c)) as [g|] eqn:Eg; simpl in H; [|discriminate].
  destruct (int_of_float (c2 c)) as [b|] eqn:Eb; simpl in H; [|discriminate].
  inversion H; subst; simpl.
  auto using int_of_float_truncated.
Qed.

(** C8, as the code has it. Each channel of each colour of the palette is
    the matching channel of a row of centres cut toward zero by [int],
    channel by channel; it is not rounded to the nearest integer. *)
Theorem extract_colors_truncates
    (fit : clusterer) (img : image) (clt : KMeans) (palette : list color) :
  fit (clusters_num img) (reshape img) = Ok clt ->
  extract_colors fit img = Ok palette ->
  channels_converted truncated clt palette.
Proof.
  intros Hfit Hp col Hcol.
  rewrite (extract_colors_fitted fit img clt Hfit) in Hp.
  destruct (mapM int_center _) as [cs|] eqn:Ecs; simpl in Hp; [|discriminate].
  apply (Permutation_in _ (Permutation_sym (sort_colors_perm _ _ Hp))) in Hcol.
  destruct (mapM_In _ _ _ _ Ecs Hcol) as [ctr [Hctr Hint]].
  exists ctr. split.
  - apply (In_firstn _ _ _ Hctr).
  - apply int_center_truncated, Hint.
Qed.

Lemma extract_colors_truncates_witness :
  answer mean_clt (clusters_num mean_image) (reshape mean_image) = Ok mean_clt /\
  extract_colors (answer mean_clt) mean_image
  = Ok [RGB 2 0 0; RGB 100 0 0; RGB 50 50 50; RGB 0 100 0; RGB 0 0 100] /\
  channels_converted truncated mean_clt
    [RGB 2 0 0; RGB 100 0 0; RGB 50 50 50; RGB 0 100 0; RGB 0 0 100].
Proof.
  assert (Hp : extract_colors (answer mean_clt) mean_image
               = Ok [RGB 2 0 0; RGB 100 0 0; RGB 50 50 50; RGB 0 100 0;
                     RGB 0 0 100]) by (vm_compute; reflexivity).
  split; [reflexivity|]. split; [exact Hp|].
  apply (extract_colors_truncates (answer mean_clt) mean_image mean_clt _
           eq_refl Hp).
Defined.

Lemma not_nearest_2 (x : float) :
  In x [lit_2_75; of_Z 100; of_Z 0; of_Z 50] -> ~ rounds_to_nearest x 2.
Proof.
  intros Hx [_ H].
  repeat (destruct Hx as [Hx|Hx]; [subst x; vm_compute in H; apply H;
                                   reflexivity|]).
  destruct Hx.
Qed.

(** C8, as stated, fails: the cluster of mean (2.75, 0, 0) yields the
    colour (2, 0, 0), and 2 is not an integer nearest to the red channel of
    any row of centres. *)
Lemma extract_colors_not_nearest :
  extract_colors (answer mean_clt) mean_image
  = Ok [RGB 2 0 0; RGB 100 0 0; RGB 50 50 50; RGB 0 100 0; RGB 0 0 100] /\
  (to_Q lit_2_75 == 11 # 4)%Q /\
  ~ channels_converted rounds_to_nearest mean_clt
      [RGB 2 0 0; RGB 100 0 0; RGB 50 50 50; RGB 0 100 0; RGB 0 0 100].
Proof.
  split; [vm_compute; reflexivity|]. split; [reflexivity|].
  intros H. destruct (H (RGB 2 0 0) (or_introl eq_refl)) as [ctr [Hin [Hr _]]].
  simpl red in Hr.
  apply (not_nearest_2 (c0 ctr)); [|exact Hr].
  simpl in Hin.
  repeat (destruct Hin as [Hin|Hin]; [subst ctr; simpl; tauto|]).
  destruct Hin.
Qed.

(** ** Which centres make the palette *)

Lemma mapM_int_center_truncated (ctrs : list center) : forall cs : list color,
  mapM int_center ctrs = Ok cs ->
  Forall2 (center_converted truncated) ctrs cs.
Proof.
  induction ctrs as [|ctr ctrs IH]; simpl; intros cs H.
  - inversion H. constructor.
  - destruct (int_center ctr) as [c|] eqn:Ec; simpl in H; [|discriminate].
    destruct (mapM int_center ctrs) as [cs'|]; simpl in H; [|discriminate].
    inversion H; subst. constructor.
    + apply int_center_truncated, Ec.
    + apply IH. reflexivity.
Qed.

(** C10, as the code has it. When the labels of the fit take L distinct
    values, [centerize_histogram] returns L weights, not K, and the [zip]
    of [extract_colors] pairs them with the first L of the K rows of
    centres: the palette is made of these L rows, each channel cut toward
    zero by [int], and arranged by [sort_colors]; the K - L rows that
    follow are dropped whichever clusters were empty, and neither they nor
    the labels change the palette. *)
Theorem extract_colors_first_centers
    (fit : clusterer) (img : image) (clt : KMeans) :
  fit (clusters_num img) (reshape img) = Ok clt ->
  well_fitted (clusters_num img) (reshape img) clt = true ->
  let L := distinct_labels clt in
  let K := length (cluster_centers_ clt) in
  Z.of_nat K = clusters_num img /\
  length (centerize_histogram clt) = L /\
  (L <= K)%nat /\
  length (firstn L (cluster_centers_ clt)) = L /\
  extract_colors fit img
  = (cs <- mapM int_center (firstn L (cluster_centers_ clt)) ;;
     sort_colors cs) /\
  (forall cs, mapM int_center (firstn L (cluster_centers_ clt)) = Ok cs ->
     forallb representable cs = true ->
     exists palette, extract_colors fit img = Ok palette) /\
  (forall palette, extract_colors fit img = Ok palette ->
     (exists cs,
         mapM int_center (firstn L (cluster_centers_ clt)) = Ok cs /\
         Forall2 (center_converted truncated)
                 (firstn L (cluster_centers_ clt)) cs /\
         Permutation cs palette) /\
     first_centers_converted truncated L clt palette /\
     length palette = L /\
     (forallb rgb palette = true -> bucketed_by_luminance palette)) /\
  (forall (fit' : clusterer) (clt' : KMeans),
     fit' (clusters_num img) (reshape img) = Ok clt' ->
     distinct_labels clt' = L ->
     firstn L (cluster_centers_ clt') = firstn L (cluster_centers_ clt) ->
     extract_colors fit' img = extract_colors fit img).
Proof.
  intros Hfit Hwf L K.
  pose proof (distinct_labels_le _ _ _ Hwf) as Hle. fold L K in Hle.
  pose proof (extract_colors_fitted fit img clt Hfit) as Heq. fold L in Heq.
  assert (Hlen : length (firstn L (cluster_centers_ clt)) = L)
    by (rewrite length_firstn; fold K; lia).
  split; [|split; [|split; [|split; [|split; [|split; [|split]]]]]].
  - unfold well_fitted in Hwf.
    apply andb_prop in Hwf as [Hwf _]. apply andb_prop in Hwf as [Hk _].
    apply Z.eqb_eq, Hk.
  - apply length_centerize_histogram.
  - exact Hle.
  - exact Hlen.
  - exact Heq.
  - intros cs Hcs Hrep. rewrite Heq, Hcs. simpl bind.
    eexists. apply sort_colors_buckets, Hrep.
  - intros palette Hp. rewrite Heq in Hp.
    destruct (mapM int_center (firstn L (cluster_centers_ clt)))
      as [cs|] eqn:Ecs; simpl in Hp; [|discriminate].
    pose proof (sort_colors_perm _ _ Hp) as Hperm.
    pose proof (mapM_int_center_truncated _ _ Ecs) as Hconv.
    split; [|split; [|split]].
    + exists cs. split; [reflexivity|]. split; assumption.
    + exists cs. split; assumption.
    + rewrite <- (Permutation_length Hperm), (mapM_length _ _ _ Ecs).
      exact Hlen.
    + intros Hrgb. apply (sort_colors_layout cs palette); [|exact Hp].
      apply (forallb_perm _ palette); [symmetry; exact Hperm|exact Hrgb].
  - intros fit' clt' Hfit' HL Hfirst.
    rewrite (extract_colors_fitted fit' img clt' Hfit'), Heq, HL, Hfirst.
    reflexivity.
Qed.

Lemma extract_colors_first_centers_witness :
  seed_fit (clusters_num solid_image) (reshape solid_image) = Ok solid_clt /\
  well_fitted (clusters_num solid_image) (reshape solid_image) solid_clt
  = true /\
  distinct_labels solid_clt = 1%nat /\
  length (cluster_centers_ solid_clt) = 5%nat /\
  extract_colors seed_fit solid_image
  = (cs <- mapM int_center (firstn 1 (cluster_centers_ solid_clt)) ;;
     sort_colors cs) /\
  extract_colors seed_fit solid_image = Ok [RGB 200 100 50] /\
  first_centers_converted truncated 1 solid_clt [RGB 200 100 50] /\
  bucketed_by_luminance [RGB 200 100 50].
Proof.
  assert (Hfit : seed_fit (clusters_num solid_image) (reshape solid_image)
                 = Ok solid_clt) by (vm_compute; reflexivity).
  assert (Hwf : well_fitted (clusters_num solid_image) (reshape solid_image)
                  solid_clt = true) by (vm_compute; reflexivity).
  assert (Hp : extract_colors seed_fit solid_image = Ok [RGB 200 100 50])
    by (vm_compute; reflexivity).
  pose proof (extract_colors_first_centers seed_fit solid_image solid_clt
                Hfit Hwf) as T.
  cbv zeta in T. destruct T as (_ & _ & _ & _ & Heq & _ & Hpal & _).
  destruct (Hpal _ Hp) as (_ & Hconv & _ & Hlay).
  split; [exact Hfit|]. split; [exact Hwf|].
  split; [reflexivity|]. split; [reflexivity|]. split; [exact Heq|].
  split; [exact Hp|]. split; [exact Hconv|].
  apply Hlay. vm_compute. reflexivity.
Defined.

(** C10, as stated, fails in its word rounded: with five clusters that
    all hold pixels, the first row of centres is (2.75, 0, 0) and the
    palette holds (2, 0, 0); no arrangement of the five rows rounded to
    nearest integers is the palette, which has no colour of red channel
    3. *)
Lemma extract_colors_first_centers_not_rounded :
  answer mean_clt (clusters_num mean_image) (reshape mean_image)
  = Ok mean_clt /\
  well_fitted (clusters_num mean_image) (reshape mean_image) mean_clt
  = true /\
  distinct_labels mean_clt = 5%nat /\
  length (cluster_centers_ mean_clt) = 5%nat /\
  (to_Q lit_2_75 == 11 # 4)%Q /\
  extract_colors (answer mean_clt) mean_image
  = Ok [RGB 2 0 0; RGB 100 0 0; RGB 50 50 50; RGB 0 100 0; RGB 0 0 100] /\
  ~ first_centers_converted rounds_to_nearest 5 mean_clt
      [RGB 2 0 0; RGB 100 0 0; RGB 50 50 50; RGB 0 100 0; RGB 0 0 100].
Proof.
  repeat (split; [vm_compute; reflexivity|]).
  intros (cs & Hconv & Hperm).
  cbn [mean_clt cluster_centers_ firstn] in Hconv.
  inversion Hconv as [|ctr c ctrs cs' [[_ Hr] _] _]; subst.
  assert (Hin : In c [RGB 2 0 0; RGB 100 0 0; RGB 50 50 50; RGB 0 100 0;
                      RGB 0 0 100])
    by (apply (Permutation_in _ Hperm); left; reflexivity).
  cbn [c0] in Hr.
  repeat (destruct Hin as [Hin|Hin];
          [subst c; vm_compute in Hr; apply Hr; reflexivity|]).
  destruct Hin.
Qed.

(** ** Failures *)




(** Nothing guards the clusterer: if it answers on an image without
    pixels, so does [extract_colors]. *)
Lemma extract_colors_no_guard :
  reshape ([[]; []] : image) = [] /\
  extract_colors (answer solid_clt) [[]; []] = Ok [RGB 200 100 50].
Proof. vm_compute. split; reflexivity. Qed.




(** ** The grid of swatches *)

Module AppFacts.

Import App.

Section Grid.
Context {pixmap : Type}.

Lemma next_cell (n : Z) :
  0 <= n ->
  (if n mod 6 + 1 =? 6 then (n / 6 + 1, 0) else (n / 6, n mod 6 + 1))
  = ((n + 1) / 6, (n + 1) mod 6).
Proof.
  intros Hn.
  destruct (Z.eqb_spec (n mod 6 + 1) 6) as [E|E]; f_equal;
    Z.div_mod_to_equations; lia.
Qed.

Lemma place_cell (n : nat) (c : color) (calls : list (gui_call pixmap)) :
  place (Z.of_nat n / 6, Z.of_nat n mod 6, calls) (n, c)
  = (Z.of_nat (S n) / 6, Z.of_nat (S n) mod 6, calls ++ [shape_at (n, c)]).
Proof.
  unfold place, shape_at. cbn [fst snd].
  pose proof (next_cell (Z.of_nat n) (Nat2Z.is_nonneg n)) as Hc.
  replace (Z.of_nat (S n)) with (Z.of_nat n + 1) by lia.
  destruct (Z.of_nat n mod 6 + 1 =? 6); injection Hc as Hr Hk;
    rewrite <- Hr, <- Hk; reflexivity.
Qed.

(** The loop keeps the cell of the next index in [(row, col)]. *)
Lemma fold_place (l : list color) :
  forall (n : nat) (calls : list (gui_call pixmap)),
  fold_left place (combine (seq n (length l)) l)
    (Z.of_nat n / 6, Z.of_nat n mod 6, calls)
  = (Z.of_nat (n + length l) / 6, Z.of_nat (n + length l) mod 6,
     calls ++ map shape_at (combine (seq n (length l)) l)).
Proof.
  induction l as [|c l IH]; intros n calls.
  - simpl. rewrite Nat.add_0_r, app_nil_r. reflexivity.
  - cbn [length seq combine fold_left map].
    rewrite place_cell, IH, <- app_assoc.
    replace (S n + length l)%nat with (n + S (length l))%nat by lia.
    reflexivity.
Qed.

Lemma update_color_pallet_calls (l : list color) :
  update_color_pallet l
  = (ResetLayout : gui_call pixmap) :: map shape_at (enumerate l).
Proof.
  unfold update_color_pallet, enumerate.
  change (0, 0, [ResetLayout (pixmap := pixmap)])
    with (Z.of_nat 0 / 6, Z.of_nat 0 mod 6, [ResetLayout (pixmap := pixmap)]).
  rewrite fold_place. reflexivity.
Qed.

Lemma nth_error_enumerate (l : list color) (i : nat) (c : color) :
  nth_error l i = Some c -> nth_error (enumerate l) i = Some (i, c).
Proof.
  unfold enumerate.
  assert (G : forall n j, nth_error l j = Some c ->
              nth_error (combine (seq n (length l)) l) j
              = Some ((n + j)%nat, c)).
  { induction l as [|d l IH]; intros n [|j] H; simpl in *; try discriminate.
    - inversion H. rewrite Nat.add_0_r. reflexivity.
    - rewrite (IH (S n) j H). f_equal. f_equal. lia. }
  intros H. apply (G 0%nat i H).
Qed.

Lemma in_enumerate (l : list color) (i : nat) (c : color) :
  In (i, c) (enumerate l) -> nth_error l i = Some c.
Proof.
  unfold enumerate.
  assert (G : forall n, In (i, c) (combine (seq n (length l)) l) ->
                        (n <= i)%nat /\ nth_error l (i - n) = Some c).
  { induction l as [|d l IH]; intros n H; simpl in H; [destruct H|].
    destruct H as [H|H].
    - inversion H; subst. rewrite Nat.sub_diag. split; [lia|reflexivity].
    - destruct (IH (S n) H) as [Hle Hn]. split; [lia|].
      replace (i - n)%nat with (S (i - S n)) by lia. exact Hn. }
  intros H. destruct (G 0%nat H) as [_ Hn].
  rewrite Nat.sub_0_r in Hn. exact Hn.
Qed.

(** X1. [update_color_pallet] first resets the layout, then creates one
    shape per colour, in order: the colour of index [i] goes to row
    [i // 6], column [i % 6] of the grid. *)
Theorem update_color_pallet_grid (l : list color) (i : nat) (c : color) :
  nth_error l i = Some c ->
  length (update_color_pallet (pixmap := pixmap) l) = S (length l) /\
  nth_error (update_color_pallet (pixmap := pixmap) l) 0 = Some ResetLayout /\
  nth_error (update_color_pallet (pixmap := pixmap) l) (S i)
  = Some (NewShape i c (Z.of_nat i / 6) (Z.of_nat i mod 6)).
Proof.
  intros H. rewrite update_color_pallet_calls. simpl.
  split; [|split; [reflexivity|]].
  - rewrite length_map. unfold enumerate.
    rewrite length_combine, length_seq, Nat.min_id. reflexivity.
  - rewrite nth_error_map, (nth_error_enumerate l i c H). reflexivity.
Qed.

Lemma in_update_color_pallet (l : list color) (i : nat) (c : color) (r k : Z) :
  In (NewShape i c r k) (update_color_pallet (pixmap := pixmap) l) ->
  nth_error l i = Some c /\ r = Z.of_nat i / 6 /\ k = Z.of_nat i mod 6.
Proof.
  rewrite update_color_pallet_calls. intros [H|H]; [discriminate|].
  apply in_map_iff in H as [[j d] [E Hj]].
  unfold shape_at in E. simpl in E. inversion E; subst.
  split; [apply in_enumerate, Hj|]. split; reflexivity.
Qed.

(** X2. No two shapes of one palette share a cell of the grid, and every
    shape lies in one of the six columns. *)
Theorem update_color_pallet_cells
    (l : list color) (i i' : nat) (c c' : color) (r k : Z) :
  In (NewShape i c r k) (update_color_pallet (pixmap := pixmap) l) ->
  In (NewShape i' c' r k) (update_color_pallet (pixmap := pixmap) l) ->
  i = i' /\ c = c' /\ 0 <= r /\ 0 <= k < 6.
Proof.
  intros H H'.
  apply in_update_color_pallet in H as (Hc & Hr & Hk).
  apply in_update_color_pallet in H' as (Hc' & Hr' & Hk').
  assert (E : i = i').
  { subst r k. apply Nat2Z.inj.
    rewrite (Z.div_mod (Z.of_nat i) 6), (Z.div_mod (Z.of_nat i') 6) by lia.
    rewrite Hr', Hk'. reflexivity. }
  subst i'. rewrite Hc in Hc'. inversion Hc'. subst r k.
  repeat split; try reflexivity.
  - apply Z.div_pos; lia.
  - apply Z.mod_pos_bound. lia.
  - apply Z.mod_pos_bound. lia.
Qed.

End Grid.

Lemma update_color_pallet_grid_witness :
  nth_error sample_palette 5 = Some (RGB 7 200 200) /\
  nth_error (update_color_pallet (pixmap := image) sample_palette) 6
  = Some (NewShape 5 (RGB 7 200 200) 0 5).
Proof.
  split; [reflexivity|].
  apply (update_color_pallet_grid (pixmap := image) sample_palette 5
           (RGB 7 200 200) eq_refl).
Defined.

Lemma update_color_pallet_cells_witness :
  In (NewShape 5 (RGB 7 200 200) 0 5)
     (update_color_pallet (pixmap := image) sample_palette) /\
  (5%nat = 5%nat /\ RGB 7 200 200 = RGB 7 200 200 /\ 0 <= 0 /\ 0 <= 5 < 6).
Proof.
  assert (H : In (NewShape 5 (RGB 7 200 200) 0 5)
                (update_color_pallet (pixmap := image) sample_palette))
    by (vm_compute; tauto).
  split; [exact H|].
  apply (update_color_pallet_cells (pixmap := image) sample_palette
           5 5 (RGB 7 200 200) (RGB 7 200 200) 0 5 H H).
Defined.

(** ** Size of the palette *)

Lemma extract_colors_length
    (fit : clusterer) (img : image) (clt : KMeans) (palette : list color) :
  fit (clusters_num img) (reshape img) = Ok clt ->
  extract_colors fit img = Ok palette ->
  (length palette <= length (cluster_centers_ clt))%nat.
Proof.
  intros Hfit Hp. rewrite (extract_colors_fitted fit img clt Hfit) in Hp.
  destruct (mapM int_center _) as [cs|] eqn:Ecs; simpl in Hp; [|discriminate].
  rewrite <- (Permutation_length (sort_colors_perm _ _ Hp)).
  rewrite (mapM_length _ _ _ Ecs), length_firstn. lia.
Qed.

Lemma extract_colors_at_most_24
    (fit : clusterer) (img : image) (palette : list color) :
  returns_k_centers fit img ->
  extract_colors fit img = Ok palette ->
  (length palette <= 24)%nat.
Proof.
  intros Hk Hp.
  destruct (fit (clusters_num img) (reshape img)) as [clt|e] eqn:Hfit.
  - pose proof (extract_colors_length fit img clt palette Hfit Hp) as Hl.
    pose proof (Hk clt Hfit) as Hc.
    pose proof (clusters_num_range img). lia.
  - unfold extract_colors in Hp. rewrite Hfit in Hp. discriminate.
Qed.

Lemma shapes_within_rows {pixmap : Type}
    (l : list color) (i : nat) (c : color) (r k : Z) :
  (length l <= 24)%nat ->
  In (NewShape i c r k) (update_color_pallet (pixmap := pixmap) l) ->
  0 <= r <= 3 /\ 0 <= k <= 5.
Proof.
  intros Hl H. apply in_update_color_pallet in H as (Hc & Hr & Hk).
  assert (Hi : (i < length l)%nat)
    by (apply nth_error_Some; rewrite Hc; discriminate).
  subst r k. Z.div_mod_to_equations. lia.
Qed.

(** X3. A palette that [extract_colors] returns has at most 24 colours and
    thus fills at most the four rows of six of the display, the library
    returning as many centres as it was asked for. *)
Theorem palette_fits_grid {pixmap : Type}
    (fit : clusterer) (img : image) (palette : list color) :
  returns_k_centers fit img ->
  extract_colors fit img = Ok palette ->
  (length palette <= 24)%nat /\
  forall (i : nat) (c : color) (r k : Z),
    In (NewShape i c r k) (update_color_pallet (pixmap := pixmap) palette) ->
    0 <= r <= 3 /\ 0 <= k <= 5.
Proof.
  intros Hk Hp.
  pose proof (extract_colors_at_most_24 fit img palette Hk Hp) as Hl.
  split; [exact Hl|].
  intros i c r k. apply shapes_within_rows, Hl.
Qed.

Lemma seed_fit_returns_k_centers_strip : returns_k_centers seed_fit strip_image.
Proof.
  intros clt H. vm_compute in H. inversion H. reflexivity.
Defined.

Lemma palette_fits_grid_witness :
  returns_k_centers seed_fit strip_image /\
  extract_colors seed_fit strip_image
  = Ok [RGB 20 10 5; RGB 40 10 5; RGB 60 10 5; RGB 80 10 5; RGB 0 10 5] /\
  (length [RGB 20 10 5; RGB 40 10 5; RGB 60 10 5; RGB 80 10 5; RGB 0 10 5]
   <= 24)%nat.
Proof.
  assert (Hp : extract_colors seed_fit strip_image
               = Ok [RGB 20 10 5; RGB 40 10 5; RGB 60 10 5; RGB 80 10 5;
                     RGB 0 10 5]) by (vm_compute; reflexivity).
  split; [exact seed_fit_returns_k_centers_strip|]. split; [exact Hp|].
  apply (palette_fits_grid (pixmap := image) seed_fit strip_image _
           seed_fit_returns_k_centers_strip Hp).
Defined.

(** ** The image list *)

Section ControllerFacts.
Context {pixmap : Type}.
Variable cv2qt_image : image -> pixmap.
Variable fit : clusterer.

Lemma position_in_range {A : Type} (l : list A) (i : Z) :
  0 <= i < Z.of_nat (length l) -> position l i = Some (Z.to_nat i).
Proof.
  intros H. unfold position.
  destruct (Z.leb_spec 0 i); [|lia].
  destruct (Z.ltb_spec i (Z.of_nat (length l))); [|lia]. reflexivity.
Qed.

Lemma position_out_of_range {A : Type} (l : list A) (i : Z) :
  Z.of_nat (length l) <= i \/ i < - Z.of_nat (length l) ->
  position l i = None.
Proof.
  intros H. unfold position.
  destruct (Z.leb_spec 0 i), (Z.ltb_spec i (Z.of_nat (length l))),
    (Z.leb_spec (- Z.of_nat (length l)) i), (Z.ltb_spec i 0);
    simpl; try reflexivity; lia.
Qed.

Lemma getitem_in_range {A : Type} (l : list A) (i : Z) :
  0 <= i < Z.of_nat (length l) ->
  exists x, nth_error l (Z.to_nat i) = Some x /\ getitem l i = Done x.
Proof.
  intros H. unfold getitem. rewrite (position_in_range l i H).
  destruct (nth_error l (Z.to_nat i)) as [x|] eqn:E.
  - exists x. split; reflexivity.
  - apply nth_error_None in E. lia.
Qed.

(** X4. With a row selected and entries stored, [update_change] never
    fails: it shows the entry of that row, or the last entry when the row
    lies beyond the stored ones, redrawing its palette and then its
    image. *)
Theorem update_change_shows (index : Z) (st : state pixmap) :
  image_data_list st <> [] ->
  0 <= index ->
  exists e : pixmap * list color,
    nth_error (image_data_list st)
      (Z.to_nat (Z.min index (Z.of_nat (length (image_data_list st)) - 1)))
    = Some e /\
    update_change index st
    = Done (State (image_data_list st) (Some (fst e))
              (gui st ++ update_color_pallet (snd e)
               ++ [SetImageBackground (fst e)])).
Proof.
  intros Hne Hi. unfold update_change.
  destruct (Z.eqb_spec index (-1)); [lia|].
  set (len := Z.of_nat (length (image_data_list st))).
  assert (Hlen : 0 < len).
  { unfold len. destruct (image_data_list st); [congruence|simpl; lia]. }
  assert (Hclamp : (if index >=? len - 1 then len - 1 else index)
                   = Z.min index (len - 1)).
  { rewrite Z.geb_leb. destruct (Z.leb_spec (len - 1) index); lia. }
  rewrite Hclamp.
  destruct (getitem_in_range (image_data_list st) (Z.min index (len - 1)))
    as [e [Hnth Hget]]; [unfold len in *; lia|].
  exists e. split; [exact Hnth|]. rewrite Hget. reflexivity.
Qed.

(** X5. With no entry stored, any selected row makes [update_change]
    raise [IndexError]: the row is replaced by [len - 1 = -1], which
    subscripts an empty list. *)
Theorem update_change_empty (index : Z) (st : state pixmap) :
  image_data_list st = [] ->
  index <> -1 ->
  update_change index st = Failed IndexError.
Proof.
  intros He Hi. unfold update_change.
  destruct (Z.eqb_spec index (-1)); [contradiction|].
  rewrite He. simpl length.
  unfold getitem. rewrite position_out_of_range; [reflexivity|].
  simpl. destruct (index >=? 0 - 1) eqn:E; [lia|].
  rewrite Z.geb_leb in E. apply Z.leb_gt in E. lia.
Qed.

(** X6. [delete_image] with a row among the stored entries removes that
    entry and no other: the entries before it stay in place, those after
    it move up by one. *)
Theorem delete_image_removes (index : Z) (st : state pixmap) :
  0 <= index < Z.of_nat (length (image_data_list st)) ->
  exists st' : state pixmap,
    delete_image index st = Done st' /\
    S (length (image_data_list st')) = length (image_data_list st) /\
    (forall j, (j < Z.to_nat index)%nat ->
       nth_error (image_data_list st') j = nth_error (image_data_list st) j) /\
    (forall j, (Z.to_nat index <= j)%nat ->
       nth_error (image_data_list st') j
       = nth_error (image_data_list st) (S j)).
Proof.
  intros H. unfold delete_image, delitem.
  rewrite (position_in_range _ _ H).
  set (k := Z.to_nat index). set (l := image_data_list st) in *.
  assert (Hk : (k < length l)%nat) by (unfold k; lia).
  eexists. split; [reflexivity|]. cbn [image_data_list].
  assert (Hf : length (firstn k l) = k) by (rewrite length_firstn; lia).
  split; [|split].
  - rewrite length_app, Hf, length_skipn. lia.
  - intros j Hj. rewrite nth_error_app1 by lia.
    rewrite nth_error_firstn.
    destruct (Nat.ltb_spec j k); [reflexivity|lia].
  - intros j Hj. rewrite nth_error_app2 by lia.
    rewrite Hf, nth_error_skipn. f_equal. lia.
Qed.

(** X7. [delete_image] with a row that is not stored raises
    [IndexError]. *)
Theorem delete_image_out_of_range (index : Z) (st : state pixmap) :
  Z.of_nat (length (image_data_list st)) <= index \/
  index < - Z.of_nat (length (image_data_list st)) ->
  delete_image index st = Failed IndexError.
Proof.
  intros H. unfold delete_image, delitem.
  rewrite (position_out_of_range _ _ H). reflexivity.
Qed.

(** X8. [delete_image] touches the widgets only when it empties the
    list, clearing the preview and the swatches; otherwise nothing is
    redrawn, and [current_image] is never changed, also when the entry it
    came from is the one deleted. *)
Theorem delete_image_display (index : Z) (st st' : state pixmap) :
  delete_image index st = Done st' ->
  current_image st' = current_image st /\
  ((image_data_list st' = [] /\
    gui st' = gui st ++ [ClearPreview; ResetLayout]) \/
   (image_data_list st' <> [] /\ gui st' = gui st)).
Proof.
  unfold delete_image.
  destruct (delitem (image_data_list st) index) as [l|f]; [|discriminate].
  intros H. inversion H; subst; clear H. cbn [current_image image_data_list gui].
  split; [reflexivity|].
  destruct l as [|e l]; simpl.
  - left. split; reflexivity.
  - right. split; [discriminate|reflexivity].
Qed.

Lemma add_image_done (img : image) (st st' : state pixmap) :
  add_image pixmap cv2qt_image fit img st = Done st' ->
  exists palette : list color,
    extract_colors fit img = Ok palette /\
    st' = State (image_data_list st ++ [(cv2qt_image img, palette)])
            (current_image st) (gui st).
Proof.
  unfold add_image.
  destruct (extract_colors fit img) as [palette|e]; simpl; [|discriminate].
  intros H. inversion H. exists palette. split; reflexivity.
Qed.

(** X9. Deleting the row that [add_image] has just filled gives back the
    list of entries as it was. *)
Theorem add_then_delete (img : image) (st st1 : state pixmap) :
  add_image pixmap cv2qt_image fit img st = Done st1 ->
  exists st2 : state pixmap,
    delete_image (Z.of_nat (length (image_data_list st))) st1 = Done st2 /\
    image_data_list st2 = image_data_list st /\
    current_image st2 = current_image st.
Proof.
  intros H. destruct (add_image_done img st st1 H) as [palette [_ E]].
  subst st1. unfold delete_image, delitem. cbn [image_data_list].
  rewrite position_in_range by (rewrite length_app; simpl; lia).
  rewrite Nat2Z.id.
  eexists. split; [reflexivity|]. cbn [image_data_list current_image].
  split; [|reflexivity].
  rewrite firstn_app, Nat.sub_diag, firstn_all. simpl firstn.
  rewrite skipn_all2 by (rewrite length_app; simpl; lia).
  rewrite !app_nil_r. reflexivity.
Qed.

(** X10. Selecting the row that [add_image] has just filled, or any row
    beyond it, shows the image that was added, with the palette that
    [extract_colors] returned for it. *)
Theorem add_then_update_change
    (img : image) (index : Z) (st st1 : state pixmap) :
  add_image pixmap cv2qt_image fit img st = Done st1 ->
  Z.of_nat (length (image_data_list st)) <= index ->
  exists palette : list color,
    extract_colors fit img = Ok palette /\
    update_change index st1
    = Done (State (image_data_list st1) (Some (cv2qt_image img))
              (gui st ++ update_color_pallet palette
               ++ [SetImageBackground (cv2qt_image img)])).
Proof.
  intros H Hi. destruct (add_image_done img st st1 H) as [palette [Hp E]].
  exists palette. split; [exact Hp|]. subst st1.
  unfold update_change. cbn [image_data_list gui].
  destruct (Z.eqb_spec index (-1)); [lia|].
  rewrite length_app. simpl length.
  replace (Z.of_nat (length (image_data_list st) + 1) - 1)
    with (Z.of_nat (length (image_data_list st))) by lia.
  rewrite Z.geb_leb.
  destruct (Z.leb_spec (Z.of_nat (length (image_data_list st))) index); [|lia].
  unfold getitem.
  rewrite position_in_range by (rewrite length_app; simpl; lia).
  rewrite Nat2Z.id, nth_error_app2, Nat.sub_diag by lia.
  reflexivity.
Qed.

Lemma delitem_incl {A : Type} (l l' : list A) (i : Z) :
  delitem l i = Done l' -> incl l' l.
Proof.
  unfold delitem. destruct (position l i) as [k|]; [|discriminate].
  intros H. inversion H; subst. intros x Hx.
  apply in_app_or in Hx as [Hx|Hx].
  - apply (In_firstn _ _ _ Hx).
  - rewrite <- (firstn_skipn (S k) l). apply in_or_app. right. exact Hx.
Qed.

(** X11. Whatever the sequence of additions, selections and deletions
    since [__init__], every stored palette has at most 24 colours, the
    library returning as many centres as it is asked for. *)
Theorem reachable_palettes_bounded (st : state pixmap) :
  reachable pixmap cv2qt_image fit st -> palettes_bounded st.
Proof.
  unfold palettes_bounded.
  induction 1 as [|img st st' _ IH Hk Hadd|index st st' _ IH Hup
                  |index st st' _ IH Hdel].
  - constructor.
  - destruct (add_image_done img st st' Hadd) as [palette [Hp E]].
    subst st'. cbn [image_data_list].
    apply Forall_app. split; [exact IH|].
    constructor; [|constructor]. simpl.
    apply (extract_colors_at_most_24 fit img palette Hk Hp).
  - unfold update_change in Hup.
    destruct (index =? -1); [inversion Hup; subst; exact IH|].
    destruct (getitem _ _); [|discriminate].
    inversion Hup; subst. exact IH.
  - unfold delete_image in Hdel.
    destruct (delitem (image_data_list st) index) as [l|] eqn:E;
      [|discriminate].
    inversion Hdel; subst. cbn [image_data_list].
    rewrite Forall_forall in *. intros e He.
    apply IH. apply (delitem_incl _ _ _ E), He.
Qed.

End ControllerFacts.

Lemma add_then_delete_witness :
  add_image image (fun img => img) seed_fit solid_image init
  = Done (State [(solid_image, [RGB 200 100 50])] None []) /\
  exists st2 : state image,
    delete_image 0 (State [(solid_image, [RGB 200 100 50])] None [])
    = Done st2 /\
    image_data_list st2 = [] /\ current_image st2 = None.
Proof.
  assert (H : add_image image (fun img => img) seed_fit solid_image init
              = Done (State [(solid_image, [RGB 200 100 50])] None []))
    by (vm_compute; reflexivity).
  split; [exact H|].
  apply (add_then_delete (fun img => img) seed_fit solid_image init _ H).
Defined.

Lemma add_then_update_change_witness :
  add_image image (fun img => img) seed_fit solid_image init
  = Done (State [(solid_image, [RGB 200 100 50])] None []) /\
  0 <= 3 /\
  exists palette : list color,
    extract_colors seed_fit solid_image = Ok palette /\
    update_change 3 (State [(solid_image, [RGB 200 100 50])] None [])
    = Done (State [(solid_image, [RGB 200 100 50])] (Some solid_image)
              ([] ++ update_color_pallet palette
               ++ [SetImageBackground solid_image])).
Proof.
  assert (H : add_image image (fun img => img) seed_fit solid_image init
              = Done (State [(solid_image, [RGB 200 100 50])] None []))
    by (vm_compute; reflexivity).
  split; [exact H|]. split; [lia|].
  apply (add_then_update_change (fun img => img) seed_fit solid_image 3
           init _ H).
  simpl. lia.
Defined.

Lemma reachable_sample :
  reachable image (fun img => img) seed_fit
    (State [(solid_image, [RGB 200 100 50])] None []).
Proof.
  apply (reach_add image (fun img => img) seed_fit solid_image init).
  - apply reach_init.
  - intros clt H. vm_compute in H. inversion H. reflexivity.
  - vm_compute. reflexivity.
Defined.

Lemma reachable_palettes_bounded_witness :
  reachable image (fun img => img) seed_fit
    (State [(solid_image, [RGB 200 100 50])] None []) /\
  palettes_bounded (State [(solid_image, [RGB 200 100 50])] None []).
Proof.
  split; [exact reachable_sample|].
  apply (reachable_palettes_bounded (fun img => img) seed_fit _
           reachable_sample).
Defined.

Lemma update_change_shows_witness :
  (State [(solid_image, [RGB 200 100 50])] None []
   : state image).(image_data_list) <> [] /\
  0 <= 7 /\
  exists e : image * list color,
    nth_error [(solid_image, [RGB 200 100 50])] 0 = Some e /\
    update_change 7 (State [(solid_image, [RGB 200 100 50])] None [])
    = Done (State [(solid_image, [RGB 200 100 50])] (Some (fst e))
              ([] ++ update_color_pallet (snd e)
               ++ [SetImageBackground (fst e)])).
Proof.
  assert (Hne : (State [(solid_image, [RGB 200 100 50])] None []
                 : state image).(image_data_list) <> [])
    by (simpl; discriminate).
  split; [exact Hne|]. split; [lia|].
  apply (update_change_shows 7
           (State [(solid_image, [RGB 200 100 50])] None []) Hne).
  lia.
Defined.

Lemma update_change_empty_witness :
  image_data_list (init : state image) = [] /\ 0 <> -1 /\
  update_change 0 (init : state image) = Failed IndexError.
Proof.
  split; [reflexivity|]. split; [lia|].
  apply (update_change_empty 0 init eq_refl). lia.
Defined.

Lemma delete_image_removes_witness :
  0 <= 0 < Z.of_nat (length [(solid_image, [RGB 200 100 50])]) /\
  exists st' : state image,
    delete_image 0 (State [(solid_image, [RGB 200 100 50])] None [])
    = Done st' /\
    S (length (image_data_list st')) = 1%nat.
Proof.
  assert (H : 0 <= 0 < Z.of_nat (length [(solid_image, [RGB 200 100 50])]))
    by (simpl; lia).
  split; [exact H|].
  destruct (delete_image_removes 0
              (State [(solid_image, [RGB 200 100 50])] None []) H)
    as [st' [Hd [Hl _]]].
  exists st'. split; [exact Hd|exact Hl].
Defined.

Lemma delete_image_out_of_range_witness :
  (Z.of_nat (length (image_data_list (init : state image))) <= 0 \/
   0 < - Z.of_nat (length (image_data_list (init : state image)))) /\
  delete_image 0 (init : state image) = Failed IndexError.
Proof.
  assert (H : Z.of_nat (length (image_data_list (init : state image))) <= 0 \/
              0 < - Z.of_nat (length (image_data_list (init : state image))))
    by (left; simpl; lia).
  split; [exact H|].
  apply (delete_image_out_of_range 0 init H).
Defined.

Lemma delete_image_display_witness :
  delete_image 0 (State [(solid_image, [RGB 200 100 50])] None [])
  = Done (State [] None [ClearPreview; ResetLayout]) /\
  current_image (State ([] : list (image * list color)) None
                   [ClearPreview; ResetLayout]) = None.
Proof.
  assert (H : delete_image 0 (State [(solid_image, [RGB 200 100 50])] None [])
              = Done (State [] None [ClearPreview; ResetLayout]))
    by reflexivity.
  split; [exact H|].
  apply (delete_image_display 0 _ _ H).
Defined.

End AppFacts.

(** ** Tool tips *)

Module TooltipFacts.

Import Stdlib.Strings.String Stdlib.Strings.Ascii.
Import Tooltip.
Local Open Scope string_scope.

Lemma append_assoc' (a b c : string) : (a ++ b) ++ c = a ++ (b ++ c).
Proof.
  induction a as [|x a IH]; simpl; [reflexivity|]. rewrite IH. reflexivity.
Qed.

Lemma length_append' (a b : string) :
  length (a ++ b) = (length a + length b)%nat.
Proof.
  induction a as [|x a IH]; simpl; [reflexivity|]. rewrite IH. reflexivity.
Qed.

Lemma prefix_append (p r : string) : prefix p (p ++ r) = true.
Proof.
  induction p as [|x p IH]; simpl; [destruct r; reflexivity|].
  destruct (ascii_dec x x); [exact IH|congruence].
Qed.

Lemma contains_prefix (p s : string) : prefix p s = true -> contains p s = true.
Proof.
  intros H. destruct s; cbn [contains]; rewrite H; reflexivity.
Qed.

(** A string contains what it was built around. *)
Lemma contains_append (sub s r : string) : contains sub (s ++ sub ++ r) = true.
Proof.
  induction s as [|x s IH].
  - change ("" ++ sub ++ r) with (sub ++ r).
    apply contains_prefix, prefix_append.
  - change (String x s ++ sub ++ r) with (String x (s ++ sub ++ r)).
    cbn [contains]. rewrite IH. apply Bool.orb_true_r.
Qed.

Lemma substring_append (a b : string) : substring 0 (length a) (a ++ b) = a.
Proof.
  induction a as [|x a IH]; simpl.
  - destruct b; reflexivity.
  - rewrite IH. reflexivity.
Qed.

(** After a click the tool tip ends with [" copied."], whatever it was: it
    contains ["copied."], hence ["copied"]. *)
Lemma copy_color_marks (color tip : string) :
  contains "copied." (toolTip (copy_color color tip)) = true.
Proof.
  unfold copy_color. simpl.
  destruct (contains "copied." tip) eqn:E; simpl; [exact E|].
  replace (tip ++ " copied.") with ((tip ++ " ") ++ "copied." ++ "")
    by (rewrite append_assoc'; reflexivity).
  apply contains_append.
Qed.

(** X12. Clicking a swatch twice leaves the tool tip of the first click:
    [" copied."] is appended once. *)
Theorem copy_color_twice (color color' tip : string) :
  toolTip (copy_color color' (toolTip (copy_color color tip)))
  = toolTip (copy_color color tip).
Proof.
  unfold copy_color at 1. cbn [toolTip].
  rewrite copy_color_marks. reflexivity.
Qed.

Lemma click_and_leave_spaces (color tip : string) :
  contains "copied." tip = false ->
  click_and_leave color tip = tip ++ " ".
Proof.
  intros H.
  unfold click_and_leave, copy_color. rewrite H. cbn [negb toolTip].
  unfold reset_copy_message.
  replace (tip ++ " copied.") with ((tip ++ " ") ++ "copied" ++ ".")
    by (rewrite append_assoc'; reflexivity).
  rewrite contains_append.
  replace ((tip ++ " ") ++ "copied" ++ ".") with ((tip ++ " ") ++ "copied.")
    by reflexivity.
  unfold drop_last.
  replace (length ((tip ++ " ") ++ "copied.") - 7)%nat
    with (length (tip ++ " "))
    by (rewrite (length_append' (tip ++ " ")); simpl; lia).
  apply substring_append.
Qed.

(** X13. Leaving a swatch after a click does not give back its tool tip:
    [reset_copy_message] cuts seven characters where [copy_color] had
    appended the eight of [" copied."], so a space stays behind. *)
Theorem click_and_leave_keeps_space (color tip : string) :
  contains "copied." tip = false ->
  click_and_leave color tip = tip ++ " " /\
  click_and_leave color tip <> tip.
Proof.
  intros H.
  pose proof (click_and_leave_spaces color tip H) as E.
  split; [exact E|].
  rewrite E. intros Heq.
  apply (f_equal length) in Heq. rewrite length_append' in Heq.
  simpl in Heq. lia.
Qed.

Lemma click_and_leave_keeps_space_witness :
  contains "copied." "[200, 100, 50]" = false /\
  click_and_leave "#c86432" "[200, 100, 50]" = "[200, 100, 50] ".
Proof.
  split; [reflexivity|].
  apply (click_and_leave_keeps_space "#c86432" "[200, 100, 50]" eq_refl).
Defined.

Lemma prefix_before_space (p : string) : forall s : string,
  space_free p = true -> prefix p (s ++ " ") = prefix p s.
Proof.
  induction p as [|x p IH]; intros s H; [destruct s; reflexivity|].
  simpl in H. apply andb_prop in H as [Hx Hp].
  destruct s as [|y s]; simpl.
  - destruct (ascii_dec x " ") as [E|E]; [|reflexivity].
    subst x. discriminate.
  - destruct (ascii_dec x y); [apply IH, Hp|reflexivity].
Qed.

Lemma contains_before_space (p s : string) :
  space_free p = true -> p <> "" ->
  contains p (s ++ " ") = contains p s.
Proof.
  intros Hp Hne. induction s as [|y s IH].
  - destruct p as [|x p]; [congruence|].
    simpl in Hp. apply andb_prop in Hp as [Hx _]. simpl.
    destruct (ascii_dec x " ") as [E|E]; [subst x; discriminate|reflexivity].
  - change (contains p ((String y s) ++ " "))
      with (prefix p ((String y s) ++ " ") || contains p (s ++ " ")).
    rewrite (prefix_before_space p (String y s) Hp), IH. reflexivity.
Qed.

Lemma contains_before_spaces (p : string) (n : nat) : forall s : string,
  space_free p = true -> p <> "" ->
  contains p (s ++ spaces n) = contains p s.
Proof.
  induction n as [|n IH]; intros s Hp Hne; simpl.
  - replace (s ++ "") with s; [reflexivity|].
    induction s as [|y s IHs]; simpl; [reflexivity|].
    rewrite <- IHs. reflexivity.
  - replace (s ++ String " " (spaces n)) with ((s ++ " ") ++ spaces n)
      by (rewrite append_assoc'; reflexivity).
    rewrite (IH (s ++ " ") Hp Hne). apply contains_before_space; assumption.
Qed.

Lemma spaces_snoc (n : nat) : spaces n ++ " " = spaces (S n).
Proof.
  induction n as [|n IH]; simpl; [reflexivity|].
  simpl in IH. rewrite IH. reflexivity.
Qed.

(** X14. Each click followed by a leave adds one more space to the tool
    tip: after [n] of them it has grown by [n] spaces. *)
Theorem click_and_leave_accumulates (color tip : string) (n : nat) :
  contains "copied." tip = false ->
  Nat.iter n (click_and_leave color) tip = tip ++ spaces n.
Proof.
  intros H. induction n as [|n IH].
  - simpl. induction tip as [|y s IHs]; simpl; [reflexivity|].
    simpl in H. apply Bool.orb_false_elim in H as [_ H].
    rewrite <- (IHs H). reflexivity.
  - rewrite Nat.iter_succ, IH.
    rewrite click_and_leave_spaces.
    + rewrite append_assoc', spaces_snoc. reflexivity.
    + rewrite contains_before_spaces; [exact H|reflexivity|discriminate].
Qed.

Lemma click_and_leave_accumulates_witness :
  contains "copied." "[200, 100, 50]" = false /\
  Nat.iter 3 (click_and_leave "#c86432") "[200, 100, 50]"
  = "[200, 100, 50]   ".
Proof.
  split; [reflexivity|].
  apply (click_and_leave_accumulates "#c86432" "[200, 100, 50]" 3 eq_refl).
Defined.

End TooltipFacts.

(** ** Further properties of the pipeline *)

Lemma luminance_raises (c : color) (e : exn) :
  luminance c = Raise e -> e = OverflowError.
Proof.
  unfold luminance, float_of_int.
  destruct (Z.abs (red c) <? overflow_bound); simpl;
    [|intros H; inversion H; reflexivity].
  destruct (Z.abs (green c) <? overflow_bound); simpl;
    [|intros H; inversion H; reflexivity].
  destruct (Z.abs (blue c) <? overflow_bound); simpl;
    [discriminate|intros H; inversion H; reflexivity].
Qed.

Lemma sorted_raises (l : list color) (e : exn) :
  sorted luminance l = Raise e -> e = OverflowError.
Proof.
  unfold sorted.
  destruct (mapM luminance l) as [ks|e'] eqn:E; simpl; [discriminate|].
  intros H. inversion H; subst e'. clear H.
  induction l as [|c l IH]; simpl in E; [discriminate|].
  destruct (luminance c) as [k|e1] eqn:Ec; simpl in E.
  - destruct (mapM luminance l) as [ks|e2]; simpl in E; [discriminate|].
    inversion E; subst. apply IH. reflexivity.
  - inversion E; subst. apply (luminance_raises c e Ec).
Qed.

Lemma sort_colors_raises_overflow (l : list color) (e : exn) :
  sort_colors l = Raise e -> e = OverflowError.
Proof.
  unfold sort_colors.
  destruct (sorted luminance (reds (partition_colors l))) as [rs|e1] eqn:Er;
    simpl; [|intros H; inversion H; subst; apply (sorted_raises _ _ Er)].
  destruct (sorted luminance (greens (partition_colors l))) as [gs|e1] eqn:Eg;
    simpl; [|intros H; inversion H; subst; apply (sorted_raises _ _ Eg)].
  destruct (sorted luminance (blues (partition_colors l))) as [bs|e1] eqn:Eb;
    simpl; [|intros H; inversion H; subst; apply (sorted_raises _ _ Eb)].
  destruct (sorted luminance (rests (partition_colors l))) as [xs|e1] eqn:Ex;
    simpl; [discriminate|].
  intros H; inversion H; subst; apply (sorted_raises _ _ Ex).
Qed.

(** X15. [sort_colors] raises exactly when a channel of some colour is too
    large for a float, and then it raises [OverflowError]; it raises
    nothing else. *)
Theorem sort_colors_raises (l : list color) (e : exn) :
  sort_colors l = Raise e <->
  e = OverflowError /\ forallb representable l = false.
Proof.
  split.
  - intros H. split; [apply (sort_colors_raises_overflow l e H)|].
    destruct (forallb representable l) eqn:E; [|reflexivity].
    rewrite (sort_colors_buckets l E) in H. discriminate.
  - intros [He Hl]. subst e.
    destruct (sort_colors l) as [out|e] eqn:E.
    + rewrite (sort_colors_ok_representable l out E) in Hl. discriminate.
    + rewrite (sort_colors_raises_overflow l e E). reflexivity.
Qed.

(** X16. The luminance of a colour whose channels are not negative is a
    float with no minus sign, never NaN. *)
Theorem luminance_nonneg (c : color) :
  rgb c = true ->
  exists k : float, luminance c = Ok k /\ nonneg k = true.
Proof.
  intros H. exists (luminance_value c). split.
  - apply luminance_representable.
    unfold rgb in H. do 3 (apply andb_prop in H as [H _]). exact H.
  - apply luminance_value_nonneg, H.
Qed.

Lemma luminance_nonneg_witness :
  rgb (RGB 200 100 50) = true /\
  exists k : float, luminance (RGB 200 100 50) = Ok k /\ nonneg k = true.
Proof.
  split; [vm_compute; reflexivity|].
  apply (luminance_nonneg (RGB 200 100 50)). vm_compute. reflexivity.
Defined.

(** X17. The bucket of a colour is decided by these comparisons alone:
    red when R is a largest channel, green when G is larger than R and
    not smaller than B, blue when B is larger than both. *)
Theorem bucket_of_characterised (c : color) :
  (bucket_of c = Red <-> red c >= green c /\ red c >= blue c) /\
  (bucket_of c = Green <-> green c > red c /\ green c >= blue c) /\
  (bucket_of c = Blue <-> blue c > red c /\ blue c > green c).
Proof.
  unfold bucket_of.
  destruct (Z.eqb_spec (red c) (Z.max (Z.max (red c) (green c)) (blue c)));
    [repeat split; intros; try discriminate; try lia|].
  destruct (Z.eqb_spec (green c) (Z.max (Z.max (red c) (green c)) (blue c)));
    [repeat split; intros; try discriminate; try lia|].
  destruct (Z.eqb_spec (blue c) (Z.max (Z.max (red c) (green c)) (blue c)));
    repeat split; intros; try discriminate; try lia.
Qed.

Lemma length_nodup_le {A : Type} (dec : forall a b : A, {a = b} + {a <> b})
    (l : list A) : (length (nodup dec l) <= length l)%nat.
Proof.
  induction l as [|x l IH]; simpl; [lia|].
  destruct (in_dec dec x l); simpl; lia.
Qed.

(** X18. The cluster count is bounded by the number of rows of the
    image: it is at most 5 + H // 6 for H rows, whatever the colours, so an
    image of fewer than six rows always gets 5 clusters. *)
Theorem clusters_num_rows (img : image) :
  5 <= clusters_num img <= Z.min 24 (5 + Z.of_nat (length img) / 6).
Proof.
  unfold clusters_num, np_unique_axis0.
  pose proof (length_nodup_le row_eq_dec img) as Hl.
  destruct (select_clusters_num_min
              (Z.of_nat (length (nodup row_eq_dec img)))) as [Hmin Hdiv];
    [lia|].
  rewrite Hmin.
  assert (Z.of_nat (length (nodup row_eq_dec img)) / 6
          <= Z.of_nat (length img) / 6) by (apply Z.div_le_mono; lia).
  lia.
Qed.

(** X19. The weights play no part in the palette: two fits with the same
    centres and as many distinct labels give the same result, whatever
    the labels are. *)
Theorem extract_colors_ignores_weights
    (fit fit' : clusterer) (img : image) (clt clt' : KMeans) :
  fit (clusters_num img) (reshape img) = Ok clt ->
  fit' (clusters_num img) (reshape img) = Ok clt' ->
  cluster_centers_ clt = cluster_centers_ clt' ->
  distinct_labels clt = distinct_labels clt' ->
  extract_colors fit img = extract_colors fit' img.
Proof.
  intros H H' Hc Hl.
  rewrite (extract_colors_fitted fit img clt H).
  rewrite (extract_colors_fitted fit' img clt' H').
  rewrite Hc, Hl. reflexivity.
Qed.

Lemma extract_colors_ignores_weights_witness :
  answer solid_clt (clusters_num solid_image) (reshape solid_image)
  = Ok solid_clt /\
  distinct_labels solid_clt
  = distinct_labels (Fitted (cluster_centers_ solid_clt) [3; 3; 3; 3; 3; 3]) /\
  extract_colors (answer solid_clt) solid_image
  = extract_colors
      (answer (Fitted (cluster_centers_ solid_clt) [3; 3; 3; 3; 3; 3]))
      solid_image.
Proof.
  split; [reflexivity|]. split; [reflexivity|].
  apply (extract_colors_ignores_weights
           (answer solid_clt)
           (answer (Fitted (cluster_centers_ solid_clt) [3; 3; 3; 3; 3; 3]))
           solid_image solid_clt
           (Fitted (cluster_centers_ solid_clt) [3; 3; 3; 3; 3; 3]));
    reflexivity.
Defined.

Lemma int_of_float_in_range (x : float) :
  in_byte_range x -> exists n : Z, int_of_float x = Ok n /\ 0 <= n <= 255.
Proof.
  unfold in_byte_range.
  destruct x as [s|s| |s m e]; simpl is_finite; intros [Hf [H0 H255]];
    try discriminate.
  - exists 0. split; [reflexivity|lia].
  - unfold Qle in H0, H255.
    destruct e as [|p|p]; cbn [to_Q Qnum Qden inject_Z] in H0, H255.
    + destruct s; cbn [cond_Zopp] in H0, H255; [lia|].
      exists (Z.pos m). split; [reflexivity|]. lia.
    + assert (Hpow : 0 < 2 ^ Z.pos p) by (apply Z.pow_pos_nonneg; lia).
      destruct s; cbn [cond_Zopp] in H0, H255; [nia|].
      exists (Z.pos m * 2 ^ Z.pos p). split; [|nia].
      cbn [int_of_float cond_Zopp].
      rewrite Z.shiftl_mul_pow2 by lia. reflexivity.
    + assert (Hpow : 0 < 2 ^ Z.pos p) by (apply Z.pow_pos_nonneg; lia).
      rewrite Z2Pos.id in H255 by exact Hpow.
      destruct s; cbn [cond_Zopp] in H0, H255; [lia|].
      exists (Z.pos m / 2 ^ Z.pos p). split.
      * cbn [int_of_float cond_Zopp].
        change (Z.shiftl (Z.pos m) (Z.neg p))
          with (Z.shiftr (Z.pos m) (Z.pos p)).
        rewrite Z.shiftr_div_pow2 by lia. reflexivity.
      * split; [apply Z.div_pos; lia|].
        apply Z.div_le_upper_bound; lia.
Qed.

Lemma int_center_in_range (c : center) :
  center_in_range c ->
  exists col : color, int_center c = Ok col /\ rgb8 col = true.
Proof.
  intros (H0 & H1 & H2). unfold int_center.
  destruct (int_of_float_in_range _ H0) as [r [Er Hr]].
  destruct (int_of_float_in_range _ H1) as [g [Eg Hg]].
  destruct (int_of_float_in_range _ H2) as [b [Eb Hb]].
  rewrite Er, Eg, Eb. simpl. exists (RGB r g b). split; [reflexivity|].
  unfold rgb8. simpl.
  repeat (apply andb_true_intro; split); apply Z.leb_le; lia.
Qed.

Lemma mapM_int_center_in_range (cs : list center) :
  Forall center_in_range cs ->
  exists cols : list color,
    mapM int_center cs = Ok cols /\ forallb rgb8 cols = true.
Proof.
  induction 1 as [|c cs Hc _ [cols [E Hcols]]]; simpl.
  - exists []. split; reflexivity.
  - destruct (int_center_in_range c Hc) as [col [Ec Hcol]].
    rewrite Ec, E. simpl. exists (col :: cols). split; [reflexivity|].
    simpl. rewrite Hcol, Hcols. reflexivity.
Qed.

Lemma rgb8_representable (l : list color) :
  forallb rgb8 l = true -> forallb representable l = true.
Proof.
  assert (Hb : 255 < overflow_bound) by (vm_compute; reflexivity).
  rewrite !forallb_forall. intros H c Hc. specialize (H c Hc).
  unfold rgb8 in H.
  repeat (apply andb_prop in H as [H ?]).
  repeat match goal with
         | E : (_ <=? _) = true |- _ => apply Z.leb_le in E
         end.
  unfold representable.
  repeat (apply andb_true_intro; split); apply Z.ltb_lt; lia.
Qed.

(** X20. Once the clusterer has answered with finite centres between 0
    and 255, as the means of 8-bit pixels are, [extract_colors] cannot
    fail, and every channel of every colour it returns lies between 0 and
    255. *)
Theorem extract_colors_in_range
    (fit : clusterer) (img : image) (clt : KMeans) :
  fit (clusters_num img) (reshape img) = Ok clt ->
  Forall center_in_range (cluster_centers_ clt) ->
  exists palette : list color,
    extract_colors fit img = Ok palette /\ forallb rgb8 palette = true.
Proof.
  intros Hfit Hc.
  rewrite (extract_colors_fitted fit img clt Hfit).
  destruct (mapM_int_center_in_range
              (firstn (distinct_labels clt) (cluster_centers_ clt)))
    as [cols [E Hcols]].
  { apply Forall_forall. intros c Hin. rewrite Forall_forall in Hc.
    apply Hc. apply (In_firstn _ _ _ Hin). }
  rewrite E. simpl bind.
  pose proof (rgb8_representable cols Hcols) as Hrep.
  rewrite (sort_colors_buckets cols Hrep).
  eexists. split; [reflexivity|].
  apply (forallb_perm rgb8 cols); [|exact Hcols].
  symmetry. apply output_perm.
Qed.

Lemma mean_clt_in_range : Forall center_in_range (cluster_centers_ mean_clt).
Proof.
  repeat constructor; try (vm_compute; intros H; discriminate H).
Defined.

Lemma extract_colors_in_range_witness :
  answer mean_clt (clusters_num mean_image) (reshape mean_image) = Ok mean_clt /\
  Forall center_in_range (cluster_centers_ mean_clt) /\
  exists palette : list color,
    extract_colors (answer mean_clt) mean_image = Ok palette /\
    forallb rgb8 palette = true.
Proof.
  split; [reflexivity|]. split; [exact mean_clt_in_range|].
  apply (extract_colors_in_range (answer mean_clt) mean_image mean_clt
           eq_refl mean_clt_in_range).
Defined.

Lemma int_of_float_raises (x : float) (e : exn) :
  int_of_float x = Raise e -> e = ValueError \/ e = OverflowError.
Proof.
  destruct x; simpl; intros H; inversion H; auto.
Qed.

Lemma mapM_int_center_raises (cs : list center) (e : exn) :
  mapM int_center cs = Raise e -> e = ValueError \/ e = OverflowError.
Proof.
  induction cs as [|c cs IH]; simpl; [discriminate|].
  destruct (int_center c) as [col|e1] eqn:Ec; simpl.
  - destruct (mapM int_center cs) as [cols|e2]; simpl; [discriminate|].
    intros H. inversion H; subst. apply IH. reflexivity.
  - intros H. inversion H; subst. clear H. unfold int_center in Ec.
    destruct (int_of_float (c0 c)) eqn:E0; simpl in Ec;
      [|inversion Ec; subst; apply (int_of_float_raises _ _ E0)].
    destruct (int_of_float (c1 c)) eqn:E1; simpl in Ec;
      [|inversion Ec; subst; apply (int_of_float_raises _ _ E1)].
    destruct (int_of_float (c2 c)) eqn:E2; simpl in Ec;
      [discriminate|inversion Ec; subst; apply (int_of_float_raises _ _ E2)].
Qed.

(** X21. An exception that leaves [extract_colors] is the one the
    clusterer raised, or the [ValueError] or [OverflowError] of a
    conversion: [int] of a centre that is NaN or infinite, or a channel too
    large for a float. *)
Theorem extract_colors_raises
    (fit : clusterer) (img : image) (e : exn) :
  extract_colors fit img = Raise e ->
  fit (clusters_num img) (reshape img) = Raise e \/
  e = ValueError \/ e = OverflowError.
Proof.
  intros H.
  destruct (fit (clusters_num img) (reshape img)) as [clt|e'] eqn:Hfit.
  - right. rewrite (extract_colors_fitted fit img clt Hfit) in H.
    destruct (mapM int_center _) as [cs|e1] eqn:Ecs; simpl in H.
    + right. apply (sort_colors_raises_overflow cs e H).
    + inversion H; subst. apply (mapM_int_center_raises _ _ Ecs).
  - left. unfold extract_colors in H. rewrite Hfit in H. simpl in H.
    inversion H. reflexivity.
Qed.

Lemma extract_colors_raises_witness :
  extract_colors seed_fit [] = Raise ValueError /\
  (seed_fit (clusters_num []) (reshape []) = Raise ValueError \/
   ValueError = ValueError \/ ValueError = OverflowError).
Proof.
  split; [reflexivity|].
  apply (extract_colors_raises seed_fit [] ValueError). reflexivity.
Defined.

(** ** The histogram when no cluster is empty *)

Lemma count_cons (f : Z -> bool) (x : Z) (a : list Z) :
  count f (x :: a) = (if f x then 1 else 0) + count f a.
Proof.
  unfold count. simpl. destruct (f x); simpl length; lia.
Qed.

Lemma sum_map_add (f g : nat -> Z) (l : list nat) :
  fold_right Z.add 0 (map (fun i => f i + g i) l)
  = fold_right Z.add 0 (map f l) + fold_right Z.add 0 (map g l).
Proof.
  induction l as [|i l IH]; simpl; [reflexivity|]. rewrite IH. lia.
Qed.

Lemma sum_indicator (x : Z) (k : nat) : forall n : nat,
  fold_right Z.add 0
    (map (fun i => if Z.of_nat i =? x then 1 else 0) (seq n k))
  = if (Z.of_nat n <=? x) && (x <? Z.of_nat (n + k)) then 1 else 0.
Proof.
  induction k as [|k IH]; intros n; simpl.
  - destruct (Z.leb_spec (Z.of_nat n) x), (Z.ltb_spec x (Z.of_nat (n + 0)));
      simpl; lia.
  - rewrite IH.
    destruct (Z.eqb_spec (Z.of_nat n) x), (Z.leb_spec (Z.of_nat (S n)) x),
      (Z.ltb_spec x (Z.of_nat (S n + k))), (Z.leb_spec (Z.of_nat n) x),
      (Z.ltb_spec x (Z.of_nat (n + S k))); simpl; lia.
Qed.

Lemma sum_counts (a : list Z) (k : nat) :
  Forall (fun x => 0 <= x < Z.of_nat k) a ->
  fold_right Z.add 0 (map (fun i => count (Z.eqb (Z.of_nat i)) a) (seq 0 k))
  = Z.of_nat (length a).
Proof.
  induction 1 as [|x a Hx _ IH].
  - induction (seq 0 k) as [|i l IHl]; simpl; [reflexivity|].
    rewrite IHl. reflexivity.
  - rewrite (map_ext _ (fun i => (if Z.of_nat i =? x then 1 else 0)
                                 + count (Z.eqb (Z.of_nat i)) a))
      by (intros i; apply count_cons).
    rewrite sum_map_add, IH, sum_indicator.
    destruct (Z.leb_spec (Z.of_nat 0) x), (Z.ltb_spec x (Z.of_nat (0 + k)));
      simpl length; simpl andb; lia.
Qed.

(** X22. When every cluster holds a pixel, the histogram that
    [centerize_histogram] normalizes has one bin per cluster, bin [i]
    counts the pixels labelled [i], and the bins add up to the number of
    pixels. *)
Theorem histogram_all_clusters (clt : KMeans) (k : nat) :
  distinct_labels clt = S k ->
  Forall (fun l => 0 <= l < Z.of_nat (S k)) (labels_ clt) ->
  length (centerize_histogram clt) = S k /\
  np_histogram (labels_ clt)
    (np_arange 0 (Z.of_nat (length (np_unique (labels_ clt))) + 1))
  = map (fun i => count (Z.eqb (Z.of_nat i)) (labels_ clt)) (seq 0 (S k)) /\
  fold_right Z.add 0
    (np_histogram (labels_ clt)
       (np_arange 0 (Z.of_nat (length (np_unique (labels_ clt))) + 1)))
  = Z.of_nat (length (labels_ clt)).
Proof.
  intros HL Hl.
  pose proof (np_histogram_all_clusters clt k HL Hl) as Hh.
  unfold distinct_labels in Hh.
  split; [rewrite length_centerize_histogram; exact HL|].
  split; [exact Hh|].
  rewrite Hh. apply sum_counts, Hl.
Qed.

Lemma histogram_all_clusters_witness :
  distinct_labels mean_clt = 5%nat /\
  length (centerize_histogram mean_clt) = 5%nat /\
  fold_right Z.add 0
    (np_histogram (labels_ mean_clt)
       (np_arange 0 (Z.of_nat (length (np_unique (labels_ mean_clt))) + 1)))
  = Z.of_nat (length (labels_ mean_clt)).
Proof.
  assert (HL : distinct_labels mean_clt = 5%nat) by reflexivity.
  assert (Hl : Forall (fun l => 0 <= l < Z.of_nat 5) (labels_ mean_clt))
    by (repeat constructor; simpl; lia).
  destruct (histogram_all_clusters mean_clt 4 HL Hl) as (H1 & _ & H3).
  split; [exact HL|]. split; [exact H1|exact H3].
Defined.

(** ** What [sorted] returns *)

(** X23. The result of [sorted] is fixed by its specification: a
    permutation of the decorated list that is sorted and keeps the
    elements of each key in their order is the list that the sort
    returns, the keys not being NaN. *)
Theorem sorted_is_unique {A : Type} (l out : list (float * A)) :
  Forall (fun r => nonneg (fst r) = true) l ->
  Permutation out l ->
  Sorted not_after out ->
  (forall k, filter (fun r => eqb (fst r) k) out
             = filter (fun r => eqb (fst r) k) l) ->
  out = sort_keyed l.
Proof.
  intros Hn Hp Hs Hc.
  apply stable_sort_unique.
  - apply (Permutation_Forall (Permutation_sym Hp) Hn).
  - apply (Permutation_Forall (Permutation_sym (sort_keyed_perm l)) Hn).
  - exact Hs.
  - apply sort_keyed_Sorted.
  - intros k. rewrite sort_keyed_key_class. apply Hc.
Qed.

Lemma sorted_is_unique_witness :
  Forall (fun r => nonneg (fst r) = true)
    (decorate [RGB 3 9 2; RGB 100 50 40]) /\
  decorate [RGB 3 9 2; RGB 100 50 40]
  = sort_keyed (decorate [RGB 3 9 2; RGB 100 50 40]).
Proof.
  assert (Hn : Forall (fun r => nonneg (fst r) = true)
                 (decorate [RGB 3 9 2; RGB 100 50 40]))
    by (repeat constructor).
  split; [exact Hn|].
  apply (sorted_is_unique (decorate [RGB 3 9 2; RGB 100 50 40])
           (decorate [RGB 3 9 2; RGB 100 50 40]) Hn (Permutation_refl _)).
  - repeat constructor.
  - intros k. reflexivity.
Defined.
